(** * Vault unsealer: the orchestrator of pkg/vault/vault.go

    A shallow embedding of the Go package [vault] (file pkg/vault/vault.go):
    the four operations [Sealed], [Unseal], [Init] and [CheckReadWriteAccess]
    of the [vault] struct, its helpers [keyStoreNotFound] and [keyStoreSet],
    and the key derivation functions [unsealKeyForID], [rootTokenKey] and
    [testKey].

    The key store ([kv.Service]) and the Vault API client ([api.Client]) are
    interfaces whose implementations live outside the package: they are
    records of operations over an abstract state of the outside world, and
    every call made through them is recorded, with its result, in a trace. *)

From Stdlib Require Import ZArith Lia Ascii.
From stdpp Require Import base list gmap strings pretty.

Local Open Scope string_scope.
Local Open Scope list_scope.
Local Open Scope Z_scope.

(** ** Go's [int] on linux/amd64: 64-bit two's complement *)

Module GoInt.

Definition min_int : Z := - 2 ^ 63.
Definition max_int : Z := 2 ^ 63 - 1.

(** Reduction of a mathematical integer to the value an [int] holds. *)
Definition wrap (z : Z) : Z := (z + 2 ^ 63) mod 2 ^ 64 - 2 ^ 63.

(** [i++] *)
Definition incr (i : Z) : Z := wrap (i + 1).

Definition in_range (z : Z) : Prop := min_int <= z <= max_int.

End GoInt.

(** ** The fragment of [fmt.Sprintf] the package uses

    Formats are scanned left to right; [%s], [%d] and [%v] consume one
    operand, [%%] prints a percent sign.  Missing, surplus and ill-typed
    operands are reported inside the output the way package [fmt] does.
    Flags, widths and the other verbs do not occur in this package; a verb
    outside [s], [d], [v] is reported as a bad verb. *)

Module fmt.

Inductive operand : Type :=
| Str (s : string)
| Int (i : Z).

Definition type_name (a : operand) : string :=
  match a with Str _ => "string" | Int _ => "int" end.

(** The default rendering of an operand ([%v]). *)
Definition value (a : operand) : string :=
  match a with Str s => s | Int i => pretty i end.

Definition bad_verb (v : ascii) (a : operand) : string :=
  "%!" +:+ String v ("(" +:+ type_name a +:+ "=" +:+ value a +:+ ")").

Definition verb (v : ascii) (a : operand) : string :=
  if Ascii.eqb v "v" then value a
  else match a with
       | Str s => if Ascii.eqb v "s" then s else bad_verb v a
       | Int i => if Ascii.eqb v "d" then pretty i else bad_verb v a
       end.

Fixpoint extra (args : list operand) : string :=
  match args with
  | [] => ""
  | [a] => type_name a +:+ "=" +:+ value a
  | a :: rest => type_name a +:+ "=" +:+ value a +:+ ", " +:+ extra rest
  end.

Fixpoint Sprintf (format : string) (args : list operand) : string :=
  match format with
  | EmptyString =>
      match args with
      | [] => ""
      | _ => "%!(EXTRA " +:+ extra args +:+ ")"
      end
  | String c rest =>
      if Ascii.eqb c "%" then
        match rest with
        | EmptyString => "%!(NOVERB)" +:+ Sprintf rest args
        | String v rest' =>
            if Ascii.eqb v "%" then String "%" (Sprintf rest' args)
            else match args with
                 | [] => "%!" +:+ String v ("(MISSING)" +:+ Sprintf rest' [])
                 | a :: args' => verb v a +:+ Sprintf rest' args'
                 end
        end
      else String c (Sprintf rest args)
  end.

End fmt.

(** ** Errors

    A Go [error] is an interface value; [None] stands for [nil].  The package
    tells errors apart in one place only, the type assertion to a pointer to
    [kv.NotFoundError] in [keyStoreNotFound], so an error is either such a
    not-found error or a value of some other dynamic type; both carry the
    text [Error()] returns. *)

Inductive error : Type :=
| NotFoundError (msg : string)
| errorString (msg : string).

Definition Error (e : error) : string :=
  match e with NotFoundError m => m | errorString m => m end.

(** [fmt.Errorf(format, args...)] *)
Definition Errorf (format : string) (args : list fmt.operand) : error :=
  errorString (fmt.Sprintf format args).

(** [errors.Wrap(err, message)] of github.com/pkg/errors: the message, a
    colon and the cause's text. *)
Definition Wrap (err : error) (message : string) : error :=
  errorString (message +:+ ": " +:+ Error err).

(** The type assertion of [err] to a pointer to [kv.NotFoundError]; a [nil]
    interface fails the assertion. *)
Definition is_NotFoundError (err : option error) : bool :=
  match err with
  | Some (NotFoundError _) => true
  | _ => false
  end.

(** ** Bytes and strings: the conversions [[]byte(s)] and [string(b)] *)

Definition bytes : Type := list Byte.byte.

Definition bytes_of_string (s : string) : bytes := String.list_byte_of_string s.
Definition string_of_bytes (b : bytes) : string := String.string_of_list_byte b.

(** ** The key store interface [kv.Service] *)

Module kv.

(** Modelled from the spec: the interface [kv.Service] of package [kv], whose
    declaration is not part of the sources at hand.  Its four methods are
    [Get(key) (bytes, error)], [Set(key, value) error], [Test(key) error] and
    [CheckWriteAccess() error].  [W] is the state of the outside world a
    backend reads and changes; [Set_] stands for the method [Set]. *)
Record Service (W : Type) : Type := mkService {
  Get : string -> W -> (bytes * option error) * W;
  Set_ : string -> bytes -> W -> option error * W;
  Test : string -> W -> option error * W;
  CheckWriteAccess : W -> option error * W
}.

Arguments mkService {W}.
Arguments Get {W}.
Arguments Set_ {W}.
Arguments Test {W}.
Arguments CheckWriteAccess {W}.

End kv.

(** ** The Vault API client, [api.Client] of github.com/hashicorp/vault/api

    Only the fields the package reads are kept.  The client returns a
    non-nil response whenever the error is nil, so a response is a value. *)

Module api.

Record SealStatusResponse : Type := mkSealStatusResponse {
  Sealed : bool;
  Progress : Z
}.

Record InitRequest : Type := mkInitRequest {
  SecretShares : Z;
  SecretThreshold : Z
}.

Record InitResponse : Type := mkInitResponse {
  Keys : list string;
  RootToken : string
}.

(** What [cl.Sys()] gives access to. *)
Record Sys (W : Type) : Type := mkSys {
  SealStatus : W -> (SealStatusResponse * option error) * W;
  Unseal : string -> W -> (SealStatusResponse * option error) * W;
  Init : InitRequest -> W -> (InitResponse * option error) * W
}.

Arguments mkSys {W}.
Arguments SealStatus {W}.
Arguments Unseal {W}.
Arguments Init {W}.

End api.

(** ** Configuration *)

(** Modelled from the spec: the struct [VaultOptions] of package [vault],
    declared outside vault.go; the fields are those of the data model:
    [KeyPrefix], [SecretShares], [SecretThreshold], [OverwriteExisting] and
    [StoreRootToken]. *)
Record VaultOptions : Type := mkVaultOptions {
  KeyPrefix : string;
  SecretShares : Z;
  SecretThreshold : Z;
  OverwriteExisting : bool;
  StoreRootToken : bool
}.

(** ** Calls and traces *)

(** One call through either interface, with what it returned. *)
Inductive call : Type :=
| KvGet (key : string) (val : bytes) (err : option error)
| KvSet (key : string) (val : bytes) (err : option error)
| KvTest (key : string) (err : option error)
| KvCheckWriteAccess (err : option error)
| SysSealStatus (resp : api.SealStatusResponse) (err : option error)
| SysUnseal (share : string) (resp : api.SealStatusResponse) (err : option error)
| SysInit (req : api.InitRequest) (resp : api.InitResponse) (err : option error).

(** The state an operation runs in: the outside world and the calls made so
    far, oldest first. *)
Record state (W : Type) : Type := mkState {
  world : W;
  trace : list call
}.

Arguments mkState {W}.
Arguments world {W}.
Arguments trace {W}.

(** State passing. *)
Definition M (W A : Type) : Type := state W -> A * state W.

Definition ret {W A : Type} (a : A) : M W A := fun s => (a, s).

Definition bind {W A B : Type} (m : M W A) (k : A -> M W B) : M W B :=
  fun s => let (a, s') := m s in k a s'.

Notation "'let*' x ':=' m 'in' k" := (bind m (fun x => k))
  (at level 10, x name, m at level 100, k at level 200, only parsing).
Notation "'let*' ' p ':=' m 'in' k" :=
  (bind m (fun x => match x with p => k end))
  (at level 10, p pattern, m at level 100, k at level 200, only parsing).

(** The outcome of one turn of a [for] loop: go round again, or [return]. *)
Inductive turn (A : Type) : Type :=
| Continue
| Return (a : A).

Arguments Continue {A}.
Arguments Return {A}.

(** ** The orchestrator *)

Section Vault.

Context {W : Type}.

(** The struct [vault]: the key store, the API client and the options; [cl]
    stands for what [u.cl.Sys()] gives. *)
Record vault : Type := mkVault {
  keyStore : kv.Service W;
  cl : api.Sys W;
  config : VaultOptions
}.

(** [New] (lines 33-39) *)
Definition New (k : kv.Service W) (cl : api.Sys W) (config : VaultOptions)
  : vault * option error :=
  (mkVault k cl config, None).

(** *** Calls through the two interfaces, each recorded in the trace *)

Definition keyStore_Get (u : vault) (key : string) : M W (bytes * option error) :=
  fun s =>
    let '(val, err, w) := kv.Get (keyStore u) key (world s) in
    ((val, err), mkState w (trace s ++ [KvGet key val err])).

Definition keyStore_Set (u : vault) (key : string) (val : bytes) : M W (option error) :=
  fun s =>
    let '(err, w) := kv.Set_ (keyStore u) key val (world s) in
    (err, mkState w (trace s ++ [KvSet key val err])).

Definition keyStore_Test (u : vault) (key : string) : M W (option error) :=
  fun s =>
    let '(err, w) := kv.Test (keyStore u) key (world s) in
    (err, mkState w (trace s ++ [KvTest key err])).

Definition keyStore_CheckWriteAccess (u : vault) : M W (option error) :=
  fun s =>
    let '(err, w) := kv.CheckWriteAccess (keyStore u) (world s) in
    (err, mkState w (trace s ++ [KvCheckWriteAccess err])).

Definition cl_SealStatus (u : vault) : M W (api.SealStatusResponse * option error) :=
  fun s =>
    let '(resp, err, w) := api.SealStatus (cl u) (world s) in
    ((resp, err), mkState w (trace s ++ [SysSealStatus resp err])).

Definition cl_Unseal (u : vault) (share : string)
  : M W (api.SealStatusResponse * option error) :=
  fun s =>
    let '(resp, err, w) := api.Unseal (cl u) share (world s) in
    ((resp, err), mkState w (trace s ++ [SysUnseal share resp err])).

Definition cl_Init (u : vault) (req : api.InitRequest)
  : M W (api.InitResponse * option error) :=
  fun s =>
    let '(resp, err, w) := api.Init (cl u) req (world s) in
    ((resp, err), mkState w (trace s ++ [SysInit req resp err])).

(** *** Key derivation (vault.go, lines 175-185) *)

Definition unsealKeyForID (u : vault) (i : Z) : string :=
  fmt.Sprintf "%s-unseal-%d" [fmt.Str (KeyPrefix (config u)); fmt.Int i].

Definition rootTokenKey (u : vault) : string :=
  fmt.Sprintf "%s-root" [fmt.Str (KeyPrefix (config u))].

Definition testKey (u : vault) : string :=
  fmt.Sprintf "%s-test" [fmt.Str (KeyPrefix (config u))].

(** *** [Sealed] (lines 41-47) *)

Definition Sealed (u : vault) : M W (bool * option error) :=
  let* '(resp, err) := cl_SealStatus u in
  match err with
  | Some e =>
      ret (false, Some (Errorf "error checking status: %s" [fmt.Str (Error e)]))
  | None => ret (api.Sealed resp, None)
  end.

(** *** [Unseal] (lines 53-82)

    [Unseal_turn u i] is the body of the loop at index [i]; the loop itself
    has no bound, so [Unseal_loop] takes the number of turns it may make and
    answers [None] when they are used up before the body returns. *)

Definition Unseal_turn (u : vault) (i : Z) : M W (turn (option error)) :=
  let keyID := unsealKeyForID u i in
  let* '(k, err) := keyStore_Get u keyID in
  match err with
  | Some e =>
      ret (Return (Some (Errorf "unable to get key '%s': %s"
                           [fmt.Str keyID; fmt.Str (Error e)])))
  | None =>
      let* '(resp, err) := cl_Unseal u (string_of_bytes k) in
      match err with
      | Some e =>
          ret (Return (Some (Errorf "fail to send unseal request to vault: %s"
                               [fmt.Str (Error e)])))
      | None =>
          if negb (api.Sealed resp) then ret (Return None)
          else if api.Progress resp =? 0 then
            ret (Return (Some (Errorf "failed to unseal vault. progress reset to 0" [])))
          else ret Continue
      end
  end.

Fixpoint Unseal_loop (u : vault) (fuel : nat) (i : Z) : M W (option (option error)) :=
  match fuel with
  | O => ret None
  | S fuel' =>
      let* r := Unseal_turn u i in
      match r with
      | Return err => ret (Some err)
      | Continue => Unseal_loop u fuel' (GoInt.incr i)
      end
  end.

Definition Unseal (u : vault) (fuel : nat) : M W (option (option error)) :=
  Unseal_loop u fuel 0.

(** *** [keyStoreNotFound] (lines 84-93) and [keyStoreSet] (lines 95-100) *)

Definition keyStoreNotFound (u : vault) (key : string) : M W bool :=
  let* '(_, err) := keyStore_Get u key in
  ret (is_NotFoundError err).

Definition keyStoreSet (u : vault) (key : string) (val : bytes) : M W (option error) :=
  if negb (OverwriteExisting (config u)) then
    let* notFound := keyStoreNotFound u key in
    if negb notFound then
      ret (Some (Errorf
        "error setting key '%s': it already exists or encounter error when getting key"
        [fmt.Str key]))
    else keyStore_Set u key val
  else keyStore_Set u key val.

(** *** [Init] (lines 102-160) *)

(** Lines 116-118: the loop [for i := 0; i <= SecretShares; i++] that appends
    the unseal keys to [keys].  [i++] wraps round, so the loop has no bound
    when [SecretShares] is the largest [int]; [None] when the turns allowed
    are used up. *)
Fixpoint Init_unseal_keys (u : vault) (fuel : nat) (i : Z) (keys : list string)
  : option (list string) :=
  match fuel with
  | O => None
  | S fuel' =>
      if i <=? SecretShares (config u) then
        Init_unseal_keys u fuel' (GoInt.incr i) (keys ++ [unsealKeyForID u i])
      else Some keys
  end.

(** Lines 121-125: [for _, key := range keys]. *)
Fixpoint Init_test_keys (u : vault) (keys : list string) : M W (option error) :=
  match keys with
  | [] => ret None
  | key :: rest =>
      let* notFound := keyStoreNotFound u key in
      if negb notFound then
        ret (Some (Errorf
          "error before init: keystore value for '%s' already exists or encounter error when getting key"
          [fmt.Str key]))
      else Init_test_keys u rest
  end.

(** Lines 110-126: the test for existing keys. *)
Definition Init_existing (u : vault) (fuel : nat) : M W (option (option error)) :=
  if negb (OverwriteExisting (config u)) then
    match Init_unseal_keys u fuel 0 [rootTokenKey u] with
    | None => ret None
    | Some keys =>
        let* err := Init_test_keys u keys in
        ret (Some err)
    end
  else ret (Some None).

(** Lines 137-144: [for i, k := range resp.Keys]; [i] is the index of [k] in
    the slice, which never leaves the range of [int]. *)
Fixpoint Init_store_keys (u : vault) (i : Z) (keys : list string) : M W (option error) :=
  match keys with
  | [] => ret None
  | k :: rest =>
      let keyID := unsealKeyForID u i in
      let* err := keyStoreSet u keyID (bytes_of_string k) in
      match err with
      | Some e =>
          ret (Some (Errorf "error storing unseal key '%s': %s"
                       [fmt.Str keyID; fmt.Str (Error e)]))
      | None => Init_store_keys u (i + 1) rest
      end
  end.

(** Lines 146-158: the root token. *)
Definition Init_root_token (u : vault) (resp : api.InitResponse) : M W (option error) :=
  let rootToken := api.RootToken resp in
  if StoreRootToken (config u) then
    let rootTokenKey := rootTokenKey u in
    let* err := keyStoreSet u rootTokenKey (bytes_of_string (api.RootToken resp)) in
    match err with
    | Some _ =>
        ret (Some (Errorf "error storing root token '%s' in key'%s'"
                     [fmt.Str rootToken; fmt.Str rootTokenKey]))
    | None => ret None
    end
  else ret None.

(** Lines 128-158: the request to Vault and the writes that follow it. *)
Definition Init_vault (u : vault) : M W (option error) :=
  let* '(resp, err) :=
    cl_Init u (api.mkInitRequest (SecretShares (config u)) (SecretThreshold (config u))) in
  match err with
  | Some e => ret (Some (Errorf "error initialising vault: %s" [fmt.Str (Error e)]))
  | None =>
      let* err := Init_store_keys u 0 (api.Keys resp) in
      match err with
      | Some e => ret (Some e)
      | None => Init_root_token u resp
      end
  end.

(** [Init]; [fuel] bounds the turns of the loop of lines 116-118, and the
    answer is [None] when they are used up. *)
Definition Init (u : vault) (fuel : nat) : M W (option (option error)) :=
  let* err := keyStore_Test u (testKey u) in
  match err with
  | Some e =>
      ret (Some (Some (Errorf "error testing keystore before init: %s"
                         [fmt.Str (Error e)])))
  | None =>
      let* existing := Init_existing u fuel in
      match existing with
      | None => ret None
      | Some (Some e) => ret (Some (Some e))
      | Some None =>
          let* err := Init_vault u in
          ret (Some err)
      end
  end.

(** *** [CheckReadWriteAccess] (lines 163-173) *)

Definition CheckReadWriteAccess (u : vault) : M W (option error) :=
  let* err := keyStore_CheckWriteAccess u in
  match err with
  | Some e => ret (Some (Wrap e "read/write access test failed"))
  | None => ret None
  end.

End Vault.

Arguments vault W : clear implicits.
Arguments mkVault {W}.

(** ** What a run shows *)

Section Observations.

Context {W : Type}.

(** The calls an operation makes when it is run from [s]. *)
Definition calls {A : Type} (m : M W A) (s : state W) : list call :=
  drop (length (trace s)) (trace (m s).2).

Definition is_read (c : call) : bool :=
  match c with KvGet _ _ _ => true | _ => false end.

Definition is_write (c : call) : bool :=
  match c with KvSet _ _ _ => true | _ => false end.

Definition is_submission (c : call) : bool :=
  match c with SysUnseal _ _ _ => true | _ => false end.

Definition is_init_request (c : call) : bool :=
  match c with SysInit _ _ _ => true | _ => false end.

(** Key store reads, Vault unseal submissions and Vault initialization
    requests in a trace. *)
Definition reads (t : list call) : nat := length (List.filter is_read t).
Definition submissions (t : list call) : nat := length (List.filter is_submission t).
Definition init_requests (t : list call) : nat := length (List.filter is_init_request t).

(** The key store writes of a trace, in order: key and value of each [Set]. *)
Definition writes (t : list call) : list (string * bytes) :=
  omap (fun c => match c with KvSet key val _ => Some (key, val) | _ => None end) t.

(** The keys read, in order. *)
Definition keys_read (t : list call) : list string :=
  omap (fun c => match c with KvGet key _ _ => Some key | _ => None end) t.

(** In [t] every [Set] comes right after a [Get] of the same key that failed
    with the not-found error. *)
Definition guarded (t : list call) : Prop :=
  forall (n : nat) key val err,
    t !! n = Some (KvSet key val err) ->
    exists m val' err',
      n = S m /\ t !! m = Some (KvGet key val' err') /\ is_NotFoundError err' = true.

(** Whatever the state it is run from, the operation only adds calls to the
    trace, and the calls it adds satisfy [Q]. *)
Definition emits (Q : list call -> Prop) {A : Type} (m : M W A) : Prop :=
  forall s, exists new, trace (m s).2 = trace s ++ new /\ Q new.

(** [rounds u i n s s']: from [s], [n] turns of the loop of [Unseal],
    starting at index [i], each of which finds its share in the key store and
    gets from Vault an answer that is still sealed with progress made, lead
    to [s']. *)
Inductive rounds (u : vault W) : Z -> nat -> state W -> state W -> Prop :=
| rounds_O i s : rounds u i O s s
| rounds_S i n s s1 s2 s3 k resp :
    keyStore_Get u (unsealKeyForID u i) s = ((k, None), s1) ->
    cl_Unseal u (string_of_bytes k) s1 = ((resp, None), s2) ->
    api.Sealed resp = true ->
    api.Progress resp <> 0 ->
    rounds u (GoInt.incr i) n s2 s3 ->
    rounds u i (S n) s s3.

(** The index the loop of [Unseal] is at after [n] turns. *)
Definition index_after (n : nat) : Z := Nat.iter n GoInt.incr 0.

(** [absent u keys s s']: looked up one after the other from [s], the keys
    are all reported not found, which leads to [s']. *)
Inductive absent (u : vault W) : list string -> state W -> state W -> Prop :=
| absent_nil s : absent u [] s s
| absent_cons key keys s s1 s2 val err :
    keyStore_Get u key s = ((val, err), s1) ->
    is_NotFoundError err = true ->
    absent u keys s1 s2 ->
    absent u (key :: keys) s s2.

(** [stored u i shares s s']: from [s], [keyStoreSet] succeeds for each of
    the shares, under the unseal keys for [i], [i + 1], ..., which leads to
    [s']. *)
Inductive stored (u : vault W) : Z -> list string -> state W -> state W -> Prop :=
| stored_nil i s : stored u i [] s s
| stored_cons i k shares s s1 s2 :
    keyStoreSet u (unsealKeyForID u i) (bytes_of_string k) s = (None, s1) ->
    stored u (i + 1) shares s1 s2 ->
    stored u i (k :: shares) s s2.

(** A key store that keeps what it is given: [contents] is what it holds,
    a [Get] changes nothing, a [Set] that succeeds puts its value under its
    key, and a [Set], failed or not, leaves the other keys alone. *)
Record lawful (ks : kv.Service W) (contents : W -> gmap string bytes) : Prop := {
  Get_contents : forall key w, contents (kv.Get ks key w).2 = contents w;
  Set_contents : forall key val w,
    (kv.Set_ ks key val w).1 = None ->
    contents (kv.Set_ ks key val w).2 = <[key := val]> (contents w);
  Set_others : forall key val w key',
    key' <> key ->
    contents (kv.Set_ ks key val w).2 !! key' = contents w !! key'
}.

(** The keys the existence test of [Init] looks up: the root key and the
    unseal keys for 0 to [SecretShares], both included. *)
Definition existing_keys (u : vault W) : list string :=
  rootTokenKey u :: map (unsealKeyForID u) (seqZ 0 (SecretShares (config u) + 1)).

(** No call of [t] is a write to the root key. *)
Definition no_root_write (u : vault W) (t : list call) : Prop :=
  forall val err, KvSet (rootTokenKey u) val err ∉ t.

(** A key store that reports a key not found only when it holds nothing
    under it. *)
Definition honest (ks : kv.Service W) (contents : W -> gmap string bytes) : Prop :=
  forall key w,
    is_NotFoundError (kv.Get ks key w).1.2 = true -> contents w !! key = None.

(** The error with which [keyStoreSet] refuses a key (line 97). *)
Definition refused_error (key : string) : error :=
  Errorf "error setting key '%s': it already exists or encounter error when getting key"
    [fmt.Str key].

(** The error with which [Init] refuses a key that its test for existing keys
    did not find absent (line 123). *)
Definition existing_error (key : string) : error :=
  Errorf
    "error before init: keystore value for '%s' already exists or encounter error when getting key"
    [fmt.Str key].

(** The entries [Init] writes for the shares Vault returned, the first of
    them under the unseal key for [i]. *)
Fixpoint unseal_entries (u : vault W) (i : Z) (shares : list string)
  : list (string * bytes) :=
  match shares with
  | [] => []
  | k :: rest => (unsealKeyForID u i, bytes_of_string k) :: unseal_entries u (i + 1) rest
  end.

(** [requested u fuel s resp s']: run from [s], [Init] gets as far as its
    writes: the probe of the key store succeeds, the test for existing keys
    finds none, and Vault answers the request with [resp], which leads to
    [s']. *)
Definition requested (u : vault W) (fuel : nat) (s : state W)
    (resp : api.InitResponse) (s' : state W) : Prop :=
  exists s1 s2,
    keyStore_Test u (testKey u) s = (None, s1)
    /\ Init_existing u fuel s1 = (Some None, s2)
    /\ cl_Init u (api.mkInitRequest (SecretShares (config u)) (SecretThreshold (config u))) s2
       = ((resp, None), s').

End Observations.

(** ** An in-memory key store and a scripted Vault, to run the operations *)

Module Mem.

Record world : Type := mkWorld {
  entries : gmap string bytes;
  (* keys whose lookup fails with an error other than not found *)
  unreadable : list string;
  (* keys that cannot be written *)
  unwritable : list string;
  test_answer : option error;
  status_answer : api.SealStatusResponse * option error;
  (* the answers to the unseal submissions to come *)
  unseal_answers : list (api.SealStatusResponse * option error);
  init_answer : api.InitResponse * option error
}.

Definition Get (key : string) (w : world) : (bytes * option error) * world :=
  if bool_decide (key ∈ unreadable w) then (([], Some (errorString "access denied")), w)
  else match entries w !! key with
       | Some val => ((val, None), w)
       | None => (([], Some (NotFoundError "key not found")), w)
       end.

Definition Set_ (key : string) (val : bytes) (w : world) : option error * world :=
  if bool_decide (key ∈ unwritable w) then (Some (errorString "access denied"), w)
  else (None, mkWorld (<[key := val]> (entries w)) (unreadable w) (unwritable w)
                (test_answer w) (status_answer w) (unseal_answers w) (init_answer w)).

Definition Test (key : string) (w : world) : option error * world :=
  (test_answer w, w).

Definition CheckWriteAccess (w : world) : option error * world :=
  (test_answer w, w).

Definition SealStatus (w : world) : (api.SealStatusResponse * option error) * world :=
  (status_answer w, w).

Definition Unseal (share : string) (w : world)
  : (api.SealStatusResponse * option error) * world :=
  match unseal_answers w with
  | [] => ((api.mkSealStatusResponse true 0, Some (errorString "connection refused")), w)
  | a :: rest =>
      (a, mkWorld (entries w) (unreadable w) (unwritable w)
            (test_answer w) (status_answer w) rest (init_answer w))
  end.

Definition Init (req : api.InitRequest) (w : world)
  : (api.InitResponse * option error) * world :=
  (init_answer w, w).

Definition service : kv.Service world := kv.mkService Get Set_ Test CheckWriteAccess.
Definition sys : api.Sys world := api.mkSys SealStatus Unseal Init.

Definition new (config : VaultOptions) : vault world := (New service sys config).1.

Definition sealed_at (progress : Z) : api.SealStatusResponse * option error :=
  (api.mkSealStatusResponse true progress, None).

Definition unsealed : api.SealStatusResponse * option error :=
  (api.mkSealStatusResponse false 0, None).

(** A world with the given entries and answers, where nothing fails. *)
Definition fresh (entries : gmap string bytes)
    (unseal_answers : list (api.SealStatusResponse * option error))
    (keys : list string) (root : string) : state world :=
  mkState (mkWorld entries [] [] None (sealed_at 0) unseal_answers
             (api.mkInitResponse keys root, None)) [].

End Mem.

(** The scenario of the specification: prefix [prod], five shares, three of
    them needed. *)
Definition prod : VaultOptions := mkVaultOptions "prod" 5 3 false true.

Definition prod_keys : list string := ["k0"; "k1"; "k2"; "k3"; "k4"].

(** An empty key store, and a Vault that hands out the five shares. *)
Definition prod_fresh : state Mem.world := Mem.fresh ∅ [] prod_keys "root-token".

(** The same, with the root token kept out of the key store. *)
Definition prod_no_root : VaultOptions := mkVaultOptions "prod" 5 3 false false.

(** The key store after initialization. *)
Definition prod_entries : gmap string bytes :=
  list_to_map
    [("prod-unseal-0", bytes_of_string "k0");
     ("prod-unseal-1", bytes_of_string "k1");
     ("prod-unseal-2", bytes_of_string "k2");
     ("prod-unseal-3", bytes_of_string "k3");
     ("prod-unseal-4", bytes_of_string "k4");
     ("prod-root", bytes_of_string "root-token")].

(** Vault unseals at the third share. *)
Definition prod_sealed : state Mem.world :=
  Mem.fresh prod_entries [Mem.sealed_at 1; Mem.sealed_at 2; Mem.unsealed] [] "".

(** Vault takes the first share and rejects the second. *)
Definition prod_rejecting : state Mem.world :=
  Mem.fresh prod_entries [Mem.sealed_at 1; Mem.sealed_at 0; Mem.unsealed] [] "".

(** Vault hands out two shares, not the five asked for. *)
Definition prod_short : state Mem.world :=
  Mem.fresh ∅ [] ["k0"; "k1"] "root-token".

(** The key store refuses writes to [prod-unseal-2]. *)
Definition prod_denied : state Mem.world :=
  mkState
    (Mem.mkWorld ∅ [] ["prod-unseal-2"] None (Mem.sealed_at 0) []
       (api.mkInitResponse prod_keys "root-token", None))
    [].

(** ** More of what a run shows *)

Section Submissions.

Context {W : Type}.

(** The shares submitted to Vault, in order. *)
Definition submitted (t : list call) : list string :=
  omap (fun c => match c with SysUnseal share _ _ => Some share | _ => None end) t.

(** In [t] every submission comes right after a read that succeeded, and
    submits the value read. *)
Definition fed (t : list call) : Prop :=
  forall (n : nat) share resp err,
    t !! n = Some (SysUnseal share resp err) ->
    exists m key k,
      n = S m /\ t !! m = Some (KvGet key k None) /\ share = string_of_bytes k.

(** A key store that hands back what it holds, and a Vault whose unseal
    endpoint leaves the key store alone, in the worlds that are [ok]. *)
Record readable (ks : kv.Service W) (sys : api.Sys W)
    (contents : W -> gmap string bytes) (ok : W -> Prop) : Prop := {
  ok_Get : forall key w, ok w -> ok (kv.Get ks key w).2;
  ok_Unseal : forall share w, ok w -> ok (api.Unseal sys share w).2;
  Get_value : forall key w val,
    ok w -> contents w !! key = Some val -> (kv.Get ks key w).1 = (val, None);
  Unseal_contents : forall share w, contents (api.Unseal sys share w).2 = contents w
}.

(** A key store whose probe touches no key but the one it is given. *)
Definition probe_apart (ks : kv.Service W) (contents : W -> gmap string bytes) : Prop :=
  forall key w key',
    key' <> key -> contents (kv.Test ks key w).2 !! key' = contents w !! key'.

(** The request [Init] sends to Vault (lines 128-131). *)
Definition init_request (u : vault W) : api.InitRequest :=
  api.mkInitRequest (SecretShares (config u)) (SecretThreshold (config u)).

(** The error [Init] returns when Vault refuses the request (line 134). *)
Definition init_error (e : error) : error :=
  Errorf "error initialising vault: %s" [fmt.Str (Error e)].

(** What follows the answer of Vault in [Init_vault]: the writes of lines
    137-158. *)
Definition Init_writes (u : vault W) (resp : api.InitResponse) : M W (option error) :=
  let* err := Init_store_keys u 0 (api.Keys resp) in
  match err with
  | Some e => ret (Some e)
  | None => Init_root_token u resp
  end.

End Submissions.

(** The worlds of the in-memory key store in which every key can be read. *)
Definition Mem_ok (w : Mem.world) : Prop := Mem.unreadable w = [].

(** Vault refuses to initialize. *)
Definition prod_refusing : state Mem.world :=
  mkState
    (Mem.mkWorld ∅ [] [] None (Mem.sealed_at 0) []
       (api.mkInitResponse [] "", Some (errorString "Vault is already initialized")))
    [].

(** Vault answers the first submission with an error. *)
Definition prod_unreachable : state Mem.world :=
  Mem.fresh prod_entries [(api.mkSealStatusResponse false 0,
                           Some (errorString "connection reset"))] [] "".

(** An empty key store, a Vault that hands out the five shares and then
    unseals at the third one submitted. *)
Definition prod_both : state Mem.world :=
  Mem.fresh ∅ [Mem.sealed_at 1; Mem.sealed_at 2; Mem.unsealed] prod_keys "root-token".

(** The key store of an earlier initialization, and a Vault that hands out
    five shares again. *)
Definition prod_again : state Mem.world :=
  Mem.fresh prod_entries [] prod_keys "root-token".

(** As many shares as an [int] can count. *)
Definition prod_max : VaultOptions := mkVaultOptions "prod" GoInt.max_int 3 false true.

(** Existing keys may be overwritten. *)
Definition prod_overwrite : VaultOptions := mkVaultOptions "prod" 5 3 true true.

(** An empty key store, and a Vault that hands out seven shares, two more
    than the five asked for. *)
Definition prod_long : state Mem.world :=
  Mem.fresh ∅ [] ["k0"; "k1"; "k2"; "k3"; "k4"; "k5"; "k6"] "root-token".

(** * Properties *)

(** ** Machine integers *)

Lemma wrap_in_range z : GoInt.in_range z -> GoInt.wrap z = z.
Proof.
  unfold GoInt.in_range, GoInt.wrap, GoInt.min_int, GoInt.max_int. intros Hz.
  rewrite Z.mod_small; lia.
Qed.

Lemma wrap_range z : GoInt.in_range (GoInt.wrap z).
Proof.
  unfold GoInt.in_range, GoInt.wrap, GoInt.min_int, GoInt.max_int.
  pose proof (Z.mod_pos_bound (z + 2 ^ 63) (2 ^ 64)). lia.
Qed.

Lemma incr_small i : GoInt.min_int <= i < GoInt.max_int -> GoInt.incr i = i + 1.
Proof.
  unfold GoInt.incr. intros Hi. apply wrap_in_range.
  unfold GoInt.in_range, GoInt.min_int, GoInt.max_int in *. lia.
Qed.

Lemma incr_max : GoInt.incr GoInt.max_int = GoInt.min_int.
Proof. reflexivity. Qed.

Lemma index_after_S n : index_after (S n) = GoInt.incr (index_after n).
Proof. reflexivity. Qed.

(** Below 2^63 turns the index of the loop of [Unseal] is the number of
    turns made. *)
Lemma index_after_small n :
  Z.of_nat n <= GoInt.max_int -> index_after n = Z.of_nat n.
Proof.
  induction n as [|n IH]; intros Hn; [reflexivity|].
  rewrite index_after_S, IH by lia. rewrite incr_small.
  - lia.
  - unfold GoInt.min_int, GoInt.max_int in *. lia.
Qed.

(** ** Bytes and strings *)

Lemma string_of_bytes_of_string s : string_of_bytes (bytes_of_string s) = s.
Proof. apply String.string_of_list_byte_of_string. Qed.

Lemma bytes_of_string_of_bytes b : bytes_of_string (string_of_bytes b) = b.
Proof. apply String.list_byte_of_string_of_list_byte. Qed.

Lemma append_empty_r (s : string) : s +:+ "" = s.
Proof.
  induction s as [|c s IH]; [reflexivity|].
  change (String c s +:+ "") with (String c (s +:+ "")). by rewrite IH.
Qed.

(** ** Key derivation *)

Section Keys.

Context {W : Type}.
Implicit Types u : vault W.

Lemma unsealKeyForID_eq u i :
  unsealKeyForID u i = KeyPrefix (config u) +:+ "-unseal-" +:+ pretty i.
Proof.
  unfold unsealKeyForID. cbn. rewrite append_empty_r. reflexivity.
Qed.

Lemma rootTokenKey_eq u : rootTokenKey u = KeyPrefix (config u) +:+ "-root".
Proof. reflexivity. Qed.

Lemma testKey_eq u : testKey u = KeyPrefix (config u) +:+ "-test".
Proof. reflexivity. Qed.

(** Two indices never share an unseal key. *)
Lemma unsealKeyForID_inj u i j : unsealKeyForID u i = unsealKeyForID u j -> i = j.
Proof.
  rewrite !unsealKeyForID_eq. intros H.
  apply String.app_inj in H. apply String.app_inj in H.
  by apply (inj pretty).
Qed.

(** The root key is no unseal key, and the probe key is neither. *)
Lemma rootTokenKey_not_unseal u i : rootTokenKey u <> unsealKeyForID u i.
Proof.
  rewrite rootTokenKey_eq, unsealKeyForID_eq. intros H.
  apply String.app_inj in H. discriminate H.
Qed.

Lemma testKey_not_unseal u i : testKey u <> unsealKeyForID u i.
Proof.
  rewrite testKey_eq, unsealKeyForID_eq. intros H.
  apply String.app_inj in H. discriminate H.
Qed.

Lemma testKey_not_root u : testKey u <> rootTokenKey u.
Proof.
  rewrite testKey_eq, rootTokenKey_eq. intros H.
  apply String.app_inj in H. discriminate H.
Qed.

(** C2. Key derivation is a function of [KeyPrefix] and the index alone, and
    gives the names of the persisted contract: the unseal key of index [i] is
    the prefix, then [-unseal-], then [i] in decimal; the root key is the
    prefix then [-root]; the probe key is the prefix then [-test].  Two
    vaults with the same prefix derive the same keys, whatever their other
    options, key store and client. *)
Theorem key_naming_contract (u u' : vault W) (i : Z) :
  unsealKeyForID u i = KeyPrefix (config u) +:+ "-unseal-" +:+ pretty i
  /\ rootTokenKey u = KeyPrefix (config u) +:+ "-root"
  /\ testKey u = KeyPrefix (config u) +:+ "-test"
  /\ (KeyPrefix (config u') = KeyPrefix (config u) ->
      unsealKeyForID u' i = unsealKeyForID u i
      /\ rootTokenKey u' = rootTokenKey u
      /\ testKey u' = testKey u).
Proof.
  split; [apply unsealKeyForID_eq|].
  split; [apply rootTokenKey_eq|].
  split; [apply testKey_eq|].
  intros Hp.
  rewrite !unsealKeyForID_eq, !rootTokenKey_eq, !testKey_eq, Hp.
  auto.
Qed.

End Keys.

(** The keys of the scenario of the specification, and of a negative index. *)
Example key_naming_prod :
  unsealKeyForID (Mem.new prod) 4 = "prod-unseal-4"
  /\ unsealKeyForID (Mem.new prod) 12 = "prod-unseal-12"
  /\ unsealKeyForID (Mem.new prod) (-7) = "prod-unseal--7"
  /\ rootTokenKey (Mem.new prod) = "prod-root"
  /\ testKey (Mem.new prod) = "prod-test".
Proof. repeat split; vm_compute; reflexivity. Qed.

(** ** Traces: what the calls of an operation look like *)

Section Traces.

Context {W : Type}.
Implicit Types (u : vault W) (s : state W).

Lemma calls_eq {A : Type} (m : M W A) s new :
  trace (m s).2 = trace s ++ new -> calls m s = new.
Proof. unfold calls. intros ->. apply drop_app_length. Qed.

Lemma emits_calls Q {A : Type} (m : M W A) s :
  emits Q m -> trace (m s).2 = trace s ++ calls m s /\ Q (calls m s).
Proof.
  intros Hm. destruct (Hm s) as (new & Ht & HQ).
  rewrite (calls_eq m s new Ht). auto.
Qed.

Lemma emits_weaken (Q Q' : list call -> Prop) {A : Type} (m : M W A) :
  (forall t, Q t -> Q' t) -> emits Q m -> emits Q' m.
Proof.
  intros HQ Hm s. destruct (Hm s) as (new & Ht & Hn). eauto.
Qed.

Section Closed.

Variable Q : list call -> Prop.
Hypothesis Q_nil : Q [].
Hypothesis Q_app : forall a b, Q a -> Q b -> Q (a ++ b).

Lemma emits_ret {A : Type} (a : A) : emits Q (ret (W := W) a).
Proof. intros s. exists []. cbn. by rewrite app_nil_r. Qed.

Lemma emits_bind {A B : Type} (m : M W A) (k : A -> M W B) :
  emits Q m -> (forall a, emits Q (k a)) -> emits Q (bind m k).
Proof.
  intros Hm Hk s. unfold bind.
  destruct (Hm s) as (n1 & H1 & Q1). destruct (m s) as [a s1]. cbn in H1.
  destruct (Hk a s1) as (n2 & H2 & Q2).
  exists (n1 ++ n2). rewrite H2, H1, app_assoc. auto.
Qed.

Lemma emits_Get u key :
  (forall val err, Q [KvGet key val err]) -> emits Q (keyStore_Get u key).
Proof.
  intros H s. unfold keyStore_Get.
  destruct (kv.Get (keyStore u) key (world s)) as [[val err] w]. cbn. eauto.
Qed.

Lemma emits_Set u key val :
  (forall err, Q [KvSet key val err]) -> emits Q (keyStore_Set u key val).
Proof.
  intros H s. unfold keyStore_Set.
  destruct (kv.Set_ (keyStore u) key val (world s)) as [err w]. cbn. eauto.
Qed.

Lemma emits_Test u key :
  (forall err, Q [KvTest key err]) -> emits Q (keyStore_Test u key).
Proof.
  intros H s. unfold keyStore_Test.
  destruct (kv.Test (keyStore u) key (world s)) as [err w]. cbn. eauto.
Qed.

Lemma emits_CheckWriteAccess u :
  (forall err, Q [KvCheckWriteAccess err]) -> emits Q (keyStore_CheckWriteAccess u).
Proof.
  intros H s. unfold keyStore_CheckWriteAccess.
  destruct (kv.CheckWriteAccess (keyStore u) (world s)) as [err w]. cbn. eauto.
Qed.

Lemma emits_SealStatus u :
  (forall resp err, Q [SysSealStatus resp err]) -> emits Q (cl_SealStatus u).
Proof.
  intros H s. unfold cl_SealStatus.
  destruct (api.SealStatus (cl u) (world s)) as [[resp err] w]. cbn. eauto.
Qed.

Lemma emits_Unseal_call u share :
  (forall resp err, Q [SysUnseal share resp err]) -> emits Q (cl_Unseal u share).
Proof.
  intros H s. unfold cl_Unseal.
  destruct (api.Unseal (cl u) share (world s)) as [[resp err] w]. cbn. eauto.
Qed.

Lemma emits_Init_call u req :
  (forall resp err, Q [SysInit req resp err]) -> emits Q (cl_Init u req).
Proof.
  intros H s. unfold cl_Init.
  destruct (api.Init (cl u) req (world s)) as [[resp err] w]. cbn. eauto.
Qed.

(** The operations that read and submit only. *)

Hypothesis Q_Get : forall key val err, Q [KvGet key val err].

Lemma emits_keyStoreNotFound u key : emits Q (keyStoreNotFound u key).
Proof.
  unfold keyStoreNotFound. apply emits_bind; [by apply emits_Get|].
  intros [val err]. apply emits_ret.
Qed.

Lemma emits_Init_test_keys u keys : emits Q (Init_test_keys u keys).
Proof.
  induction keys as [|key keys IH]; cbn [Init_test_keys]; [apply emits_ret|].
  apply emits_bind; [apply emits_keyStoreNotFound|].
  intros [|]; cbn; [exact IH | apply emits_ret].
Qed.

Lemma emits_Init_existing u fuel : emits Q (Init_existing u fuel).
Proof.
  unfold Init_existing. destruct (negb _); [|apply emits_ret].
  destruct (Init_unseal_keys _ _ _ _) as [keys|]; [|apply emits_ret].
  apply emits_bind; [apply emits_Init_test_keys|]. intros err. apply emits_ret.
Qed.

Lemma emits_Unseal_turn u i :
  (forall share resp err, Q [SysUnseal share resp err]) -> emits Q (Unseal_turn u i).
Proof.
  intros HU. unfold Unseal_turn. apply emits_bind; [by apply emits_Get|].
  intros [k [e|]]; [apply emits_ret|].
  apply emits_bind; [by apply emits_Unseal_call|].
  intros [resp [e|]]; [apply emits_ret|].
  destruct (negb _); [apply emits_ret|].
  destruct (_ =? _); apply emits_ret.
Qed.

Lemma emits_Unseal_loop u fuel i :
  (forall share resp err, Q [SysUnseal share resp err]) -> emits Q (Unseal_loop u fuel i).
Proof.
  intros HU. revert i. induction fuel as [|fuel IH]; intros i; cbn [Unseal_loop].
  - apply emits_ret.
  - apply emits_bind; [by apply emits_Unseal_turn|].
    intros [|err]; [apply IH | apply emits_ret].
Qed.

(** [Init], given what its writes look like. *)

Lemma emits_Init_store_keys u i shares :
  (forall j val, emits Q (keyStoreSet u (unsealKeyForID u j) val)) ->
  emits Q (Init_store_keys u i shares).
Proof.
  intros HS. revert i.
  induction shares as [|k shares IH]; intros i; cbn [Init_store_keys].
  - apply emits_ret.
  - apply emits_bind; [apply HS|].
    intros [e|]; [apply emits_ret | apply IH].
Qed.

Lemma emits_Init_root_token u resp :
  (StoreRootToken (config u) = true ->
   forall val, emits Q (keyStoreSet u (rootTokenKey u) val)) ->
  emits Q (Init_root_token u resp).
Proof.
  intros HR. unfold Init_root_token.
  destruct (StoreRootToken (config u)); [|apply emits_ret].
  apply emits_bind; [by apply HR|].
  intros [e|]; apply emits_ret.
Qed.

Lemma emits_Init u fuel :
  (forall key err, Q [KvTest key err]) ->
  (forall req resp err, Q [SysInit req resp err]) ->
  (forall j val, emits Q (keyStoreSet u (unsealKeyForID u j) val)) ->
  (StoreRootToken (config u) = true ->
   forall val, emits Q (keyStoreSet u (rootTokenKey u) val)) ->
  emits Q (Init u fuel).
Proof.
  intros HT HI HS HR. unfold Init.
  apply emits_bind; [by apply emits_Test|].
  intros [e|]; [apply emits_ret|].
  apply emits_bind; [apply emits_Init_existing|].
  intros [[e|]|]; [apply emits_ret| |apply emits_ret].
  apply emits_bind; [|intros err; apply emits_ret].
  unfold Init_vault. apply emits_bind; [by apply emits_Init_call|].
  intros [resp [e|]]; [apply emits_ret|].
  apply emits_bind; [by apply emits_Init_store_keys|].
  intros [e|]; [apply emits_ret | by apply emits_Init_root_token].
Qed.

End Closed.

End Traces.

(** ** [Unseal] *)

Section UnsealFacts.

Context {W : Type}.
Implicit Types (u : vault W) (s : state W).

Lemma reads_app (a b : list call) : reads (a ++ b) = (reads a + reads b)%nat.
Proof. unfold reads. by rewrite List.filter_app, length_app. Qed.

Lemma submissions_app (a b : list call) :
  submissions (a ++ b) = (submissions a + submissions b)%nat.
Proof. unfold submissions. by rewrite List.filter_app, length_app. Qed.

Lemma init_requests_app (a b : list call) :
  init_requests (a ++ b) = (init_requests a + init_requests b)%nat.
Proof. unfold init_requests. by rewrite List.filter_app, length_app. Qed.

Lemma keyStore_Get_trace u key s val err s' :
  keyStore_Get u key s = ((val, err), s') ->
  trace s' = trace s ++ [KvGet key val err].
Proof.
  unfold keyStore_Get.
  destruct (kv.Get (keyStore u) key (world s)) as [[val' err'] w].
  intros [= <- <- <-]. reflexivity.
Qed.

Lemma keyStore_Set_trace u key val s err s' :
  keyStore_Set u key val s = (err, s') ->
  trace s' = trace s ++ [KvSet key val err].
Proof.
  unfold keyStore_Set.
  destruct (kv.Set_ (keyStore u) key val (world s)) as [err' w].
  intros [= <- <-]. reflexivity.
Qed.

Lemma cl_Unseal_trace u share s resp err s' :
  cl_Unseal u share s = ((resp, err), s') ->
  trace s' = trace s ++ [SysUnseal share resp err].
Proof.
  unfold cl_Unseal.
  destruct (api.Unseal (cl u) share (world s)) as [[resp' err'] w].
  intros [= <- <- <-]. reflexivity.
Qed.

(** What [n] good turns add to the trace: [n] reads and [n] submissions. *)
Lemma rounds_trace u i n s s' :
  rounds u i n s s' ->
  exists new,
    trace s' = trace s ++ new /\ reads new = n /\ submissions new = n.
Proof.
  induction 1 as [i s | i n s s1 s2 s3 k resp HG HU _ _ _ IH].
  - exists []. by rewrite app_nil_r.
  - destruct IH as (new & Ht & Hr & Hs).
    apply keyStore_Get_trace in HG. apply cl_Unseal_trace in HU.
    exists (KvGet (unsealKeyForID u i) k None
              :: SysUnseal (string_of_bytes k) resp None :: new).
    rewrite Ht, HU, HG, <- !app_assoc. split; [reflexivity|].
    change (KvGet ?a ?b ?c :: ?d :: new) with ([KvGet a b c; d] ++ new).
    rewrite reads_app, submissions_app, Hr, Hs. auto.
Qed.

(** A good turn makes the loop go round. *)
Lemma Unseal_turn_continue u i s s1 s2 k resp :
  keyStore_Get u (unsealKeyForID u i) s = ((k, None), s1) ->
  cl_Unseal u (string_of_bytes k) s1 = ((resp, None), s2) ->
  api.Sealed resp = true ->
  api.Progress resp <> 0 ->
  Unseal_turn u i s = (Continue, s2).
Proof.
  intros HG HU Hsealed Hprogress. unfold Unseal_turn, bind.
  rewrite HG, HU, Hsealed. cbn.
  destruct (Z.eqb_spec (api.Progress resp) 0); [contradiction | reflexivity].
Qed.

Lemma iter_incr_shift n i :
  Nat.iter n GoInt.incr (GoInt.incr i) = GoInt.incr (Nat.iter n GoInt.incr i).
Proof. apply Nat.iter_swap. Qed.

(** After [n] good turns the loop is where it would have started at the
    index and in the state they lead to. *)
Lemma Unseal_loop_rounds u i n s s' fuel :
  rounds u i n s s' ->
  Unseal_loop u (n + fuel) i s = Unseal_loop u fuel (Nat.iter n GoInt.incr i) s'.
Proof.
  induction 1 as [i s | i n s s1 s2 s3 k resp HG HU Hsealed Hprogress _ IH].
  - reflexivity.
  - cbn [Nat.add Unseal_loop]. unfold bind at 1.
    rewrite (Unseal_turn_continue u i s s1 s2 k resp) by assumption.
    rewrite IH, iter_incr_shift. reflexivity.
Qed.

(** The turn in which Vault reports itself unsealed returns [nil]. *)
Lemma Unseal_turn_unsealed u i s s1 s2 k resp :
  keyStore_Get u (unsealKeyForID u i) s = ((k, None), s1) ->
  cl_Unseal u (string_of_bytes k) s1 = ((resp, None), s2) ->
  api.Sealed resp = false ->
  Unseal_turn u i s = (Return None, s2).
Proof.
  intros HG HU Hsealed. unfold Unseal_turn, bind.
  rewrite HG, HU, Hsealed. reflexivity.
Qed.

(** The turn in which Vault, still sealed, reports no progress returns the
    error. *)
Lemma Unseal_turn_reset u i s s1 s2 k resp :
  keyStore_Get u (unsealKeyForID u i) s = ((k, None), s1) ->
  cl_Unseal u (string_of_bytes k) s1 = ((resp, None), s2) ->
  api.Sealed resp = true ->
  api.Progress resp = 0 ->
  Unseal_turn u i s
  = (Return (Some (Errorf "failed to unseal vault. progress reset to 0" [])), s2).
Proof.
  intros HG HU Hsealed Hprogress. unfold Unseal_turn, bind.
  rewrite HG, HU, Hsealed, Hprogress. reflexivity.
Qed.

(** The turn in which the share cannot be fetched returns the error, and
    stops at the failed read. *)
Lemma Unseal_turn_fetch_fails u i s s1 k e :
  keyStore_Get u (unsealKeyForID u i) s = ((k, Some e), s1) ->
  Unseal_turn u i s
  = (Return (Some (Errorf "unable to get key '%s': %s"
                     [fmt.Str (unsealKeyForID u i); fmt.Str (Error e)])), s1).
Proof.
  intros HG. unfold Unseal_turn, bind. rewrite HG. reflexivity.
Qed.

(** The loop, when the turn after [n] good ones returns. *)
Lemma Unseal_returns u n s s1 s2 r fuel :
  rounds u 0 n s s1 ->
  Unseal_turn u (index_after n) s1 = (Return r, s2) ->
  (n < fuel)%nat ->
  Unseal u fuel s = (Some r, s2).
Proof.
  intros Hrounds Hturn Hfuel. unfold Unseal.
  replace fuel with (n + S (fuel - S n))%nat by lia.
  rewrite (Unseal_loop_rounds u 0 n s s1) by assumption.
  cbn [Unseal_loop]. unfold bind.
  fold (index_after n). rewrite Hturn. reflexivity.
Qed.

End UnsealFacts.

Section UnsealRuns.

Context {W : Type}.
Implicit Types (u : vault W) (s : state W).

(** The calls of a run of [Unseal] that ends, after [n] good turns, in a turn
    that fetches its share and submits it. *)
Lemma Unseal_calls_submitted u n s s1 s2 s3 k resp r fuel :
  rounds u 0 n s s1 ->
  keyStore_Get u (unsealKeyForID u (index_after n)) s1 = ((k, None), s2) ->
  cl_Unseal u (string_of_bytes k) s2 = ((resp, None), s3) ->
  Unseal u fuel s = (r, s3) ->
  reads (calls (Unseal u fuel) s) = S n
  /\ submissions (calls (Unseal u fuel) s) = S n
  /\ last (calls (Unseal u fuel) s) = Some (SysUnseal (string_of_bytes k) resp None).
Proof.
  intros Hrounds HG HU Hrun.
  destruct (rounds_trace u 0 n s s1 Hrounds) as (new & Ht & Hr & Hs).
  apply keyStore_Get_trace in HG. apply cl_Unseal_trace in HU.
  rewrite (calls_eq (Unseal u fuel) s
             (new ++ [KvGet (unsealKeyForID u (index_after n)) k None;
                      SysUnseal (string_of_bytes k) resp None])).
  - rewrite reads_app, submissions_app, Hr, Hs.
    split; [cbn; lia|]. split; [cbn; lia|].
    change [KvGet ?a ?b ?c; ?d] with ([KvGet a b c] ++ [d]).
    rewrite app_assoc. apply last_snoc.
  - rewrite Hrun. cbn [snd]. rewrite HU, HG, Ht, <- !app_assoc. reflexivity.
Qed.

(** C3. If the key store yields the shares for the indices 0, 1, ..., [n] and
    Vault answers the submission of share [n] with [Sealed = false], having
    answered every earlier one with [Sealed = true] and a progress other than
    0, then [Unseal] returns [nil] after exactly [n + 1] key store reads and
    exactly [n + 1] unseal submissions; so it makes no more than
    [SecretThreshold] reads when Vault unseals at the [SecretThreshold]-th
    submission. *)
Theorem Unseal_succeeds u n s s1 s2 s3 k resp fuel :
  rounds u 0 n s s1 ->
  keyStore_Get u (unsealKeyForID u (index_after n)) s1 = ((k, None), s2) ->
  cl_Unseal u (string_of_bytes k) s2 = ((resp, None), s3) ->
  api.Sealed resp = false ->
  (n < fuel)%nat ->
  Unseal u fuel s = (Some None, s3)
  /\ reads (calls (Unseal u fuel) s) = S n
  /\ submissions (calls (Unseal u fuel) s) = S n
  /\ (Z.of_nat (S n) = SecretThreshold (config u) ->
      Z.of_nat (reads (calls (Unseal u fuel) s)) <= SecretThreshold (config u)).
Proof.
  intros Hrounds HG HU Hsealed Hfuel.
  assert (Hrun : Unseal u fuel s = (Some None, s3)).
  { apply (Unseal_returns u n s s1); [assumption| |assumption].
    by apply (Unseal_turn_unsealed u _ s1 s2 s3 k resp). }
  destruct (Unseal_calls_submitted u n s s1 s2 s3 k resp _ fuel Hrounds HG HU Hrun)
    as (Hr & Hs & _).
  repeat split; try assumption. rewrite Hr. lia.
Qed.

(** C4. The first time Vault answers a submission with [Sealed = true] and
    [Progress = 0], [Unseal] returns the error: the run ends in the state
    that answer left, its last call is that submission, and the index was
    read and submitted once. *)
Theorem Unseal_progress_reset u n s s1 s2 s3 k resp fuel :
  rounds u 0 n s s1 ->
  keyStore_Get u (unsealKeyForID u (index_after n)) s1 = ((k, None), s2) ->
  cl_Unseal u (string_of_bytes k) s2 = ((resp, None), s3) ->
  api.Sealed resp = true ->
  api.Progress resp = 0 ->
  (n < fuel)%nat ->
  Unseal u fuel s
  = (Some (Some (Errorf "failed to unseal vault. progress reset to 0" [])), s3)
  /\ reads (calls (Unseal u fuel) s) = S n
  /\ submissions (calls (Unseal u fuel) s) = S n
  /\ last (calls (Unseal u fuel) s) = Some (SysUnseal (string_of_bytes k) resp None).
Proof.
  intros Hrounds HG HU Hsealed Hprogress Hfuel.
  assert (Hrun : Unseal u fuel s
    = (Some (Some (Errorf "failed to unseal vault. progress reset to 0" [])), s3)).
  { apply (Unseal_returns u n s s1); [assumption| |assumption].
    by apply (Unseal_turn_reset u _ s1 s2 s3 k resp). }
  split; [exact Hrun|].
  exact (Unseal_calls_submitted u n s s1 s2 s3 k resp _ fuel Hrounds HG HU Hrun).
Qed.

(** C5. If, after [n] good turns, the fetch of the share for the index
    reached fails, whatever the error, [Unseal] returns an error at once: the
    failed read is its last call, and it has made [n] submissions, one for
    each earlier index and none for this one; none at all when the fetch for
    index 0 fails. *)
Theorem Unseal_fetch_fails u n s s1 s2 k e fuel :
  rounds u 0 n s s1 ->
  keyStore_Get u (unsealKeyForID u (index_after n)) s1 = ((k, Some e), s2) ->
  (n < fuel)%nat ->
  Unseal u fuel s
  = (Some (Some (Errorf "unable to get key '%s': %s"
                   [fmt.Str (unsealKeyForID u (index_after n)); fmt.Str (Error e)])),
     s2)
  /\ submissions (calls (Unseal u fuel) s) = n
  /\ reads (calls (Unseal u fuel) s) = S n
  /\ last (calls (Unseal u fuel) s)
     = Some (KvGet (unsealKeyForID u (index_after n)) k (Some e)).
Proof.
  intros Hrounds HG Hfuel.
  assert (Hrun : Unseal u fuel s
    = (Some (Some (Errorf "unable to get key '%s': %s"
                     [fmt.Str (unsealKeyForID u (index_after n)); fmt.Str (Error e)])),
       s2)).
  { apply (Unseal_returns u n s s1); [assumption| |assumption].
    by apply (Unseal_turn_fetch_fails u _ s1 s2 k e). }
  split; [exact Hrun|].
  destruct (rounds_trace u 0 n s s1 Hrounds) as (new & Ht & Hr & Hs).
  apply keyStore_Get_trace in HG.
  rewrite (calls_eq (Unseal u fuel) s
             (new ++ [KvGet (unsealKeyForID u (index_after n)) k (Some e)])).
  - rewrite reads_app, submissions_app, Hr, Hs.
    split; [cbn; lia|]. split; [cbn; lia|]. apply last_snoc.
  - rewrite Hrun. cbn [snd]. rewrite HG, Ht, <- app_assoc. reflexivity.
Qed.

End UnsealRuns.

(** The scenario of the specification: three shares read, three submitted,
    and Vault unsealed by the third. *)
Lemma Unseal_succeeds_prod :
  exists s3,
    Unseal (Mem.new prod) 3 prod_sealed = (Some None, s3)
    /\ reads (calls (Unseal (Mem.new prod) 3) prod_sealed) = 3%nat
    /\ submissions (calls (Unseal (Mem.new prod) 3) prod_sealed) = 3%nat.
Proof.
  eexists.
  edestruct (Unseal_succeeds (Mem.new prod) 2 prod_sealed) as (H1 & H2 & H3 & _);
    [ eapply rounds_S; [reflexivity | reflexivity | reflexivity | discriminate |];
      eapply rounds_S; [reflexivity | reflexivity | reflexivity | discriminate |];
      apply rounds_O
    | reflexivity | reflexivity | reflexivity | | ].
  - instantiate (1 := 3%nat). lia.
  - auto.
Defined.

(** The second share is rejected: one more read and submission, then the
    error, though a third answer was ready. *)
Lemma Unseal_progress_reset_prod :
  exists s3,
    Unseal (Mem.new prod) 5 prod_rejecting
    = (Some (Some (errorString "failed to unseal vault. progress reset to 0")), s3)
    /\ reads (calls (Unseal (Mem.new prod) 5) prod_rejecting) = 2%nat
    /\ submissions (calls (Unseal (Mem.new prod) 5) prod_rejecting) = 2%nat.
Proof.
  eexists.
  edestruct (Unseal_progress_reset (Mem.new prod) 1 prod_rejecting)
    as (H1 & H2 & H3 & _);
    [ eapply rounds_S; [reflexivity | reflexivity | reflexivity | discriminate |];
      apply rounds_O
    | reflexivity | reflexivity | reflexivity | reflexivity | | ].
  - instantiate (1 := 5%nat). lia.
  - auto.
Defined.

(** The key store is empty: the read of [prod-unseal-0] is not found, and
    nothing is submitted to Vault. *)
Lemma Unseal_fetch_fails_prod :
  exists s2,
    Unseal (Mem.new prod) 4 prod_fresh
    = (Some (Some (errorString "unable to get key 'prod-unseal-0': key not found")), s2)
    /\ submissions (calls (Unseal (Mem.new prod) 4) prod_fresh) = 0%nat.
Proof.
  eexists.
  edestruct (Unseal_fetch_fails (Mem.new prod) 0 prod_fresh) as (H1 & H2 & _);
    [ apply rounds_O | reflexivity | | ].
  - instantiate (1 := 4%nat). lia.
  - auto.
Defined.

(** ** [Init]: the test for existing keys *)

Section InitExisting.

Context {W : Type}.
Implicit Types (u : vault W) (s : state W).


(** With [SecretShares] below the largest [int] the loop ends, and adds the
    unseal keys from [i] to [SecretShares]. *)
Lemma Init_unseal_keys_from u fuel i keys :
  0 <= i ->
  SecretShares (config u) < GoInt.max_int ->
  (Z.to_nat (SecretShares (config u) + 1 - i) < fuel)%nat ->
  Init_unseal_keys u fuel i keys
  = Some (keys ++ map (unsealKeyForID u) (seqZ i (SecretShares (config u) + 1 - i))).
Proof.
  intros Hi Hmax. revert i keys Hi.
  induction fuel as [|fuel IH]; intros i keys Hi Hfuel; [lia|].
  cbn [Init_unseal_keys]. destruct (Z.leb_spec i (SecretShares (config u))) as [Hle|Hgt].
  - rewrite incr_small by (unfold GoInt.min_int; lia).
    rewrite IH by lia. f_equal. rewrite <- app_assoc. f_equal.
    rewrite (seqZ_cons i) by lia. cbn [map app].
    replace (Z.succ i) with (i + 1) by lia.
    replace (Z.pred (SecretShares (config u) + 1 - i))
      with (SecretShares (config u) + 1 - (i + 1)) by lia.
    reflexivity.
  - rewrite seqZ_nil by lia. by rewrite app_nil_r.
Qed.

Lemma Init_unseal_keys_existing u fuel :
  SecretShares (config u) < GoInt.max_int ->
  (Z.to_nat (SecretShares (config u) + 1) < fuel)%nat ->
  Init_unseal_keys u fuel 0 [rootTokenKey u] = Some (existing_keys u).
Proof.
  intros Hmax Hfuel. rewrite Init_unseal_keys_from; [|lia|assumption|].
  - unfold existing_keys. by rewrite Z.sub_0_r.
  - by rewrite Z.sub_0_r.
Qed.

(** With [SecretShares] the largest [int], [i <= SecretShares] holds of every
    [int]: the loop never ends. *)
Lemma Init_unseal_keys_max_int u fuel i keys :
  SecretShares (config u) = GoInt.max_int ->
  GoInt.in_range i ->
  Init_unseal_keys u fuel i keys = None.
Proof.
  intros Hmax. revert i keys.
  induction fuel as [|fuel IH]; intros i keys Hi; [reflexivity|].
  cbn [Init_unseal_keys]. rewrite Hmax.
  destruct (Z.leb_spec i GoInt.max_int) as [_|Hgt].
  - apply IH, wrap_range.
  - unfold GoInt.in_range in Hi. lia.
Qed.

Lemma keyStoreNotFound_eq u key s val err s' :
  keyStore_Get u key s = ((val, err), s') ->
  keyStoreNotFound u key s = (is_NotFoundError err, s').
Proof. intros H. unfold keyStoreNotFound, bind. by rewrite H. Qed.

(** Keys that are all reported not found pass the test, read one by one. *)
Lemma Init_test_keys_absent u keys s s' :
  absent u keys s s' -> Init_test_keys u keys s = (None, s').
Proof.
  induction 1 as [s | key keys s s1 s2 val err HG Hnf _ IH]; [reflexivity|].
  cbn [Init_test_keys]. unfold bind.
  rewrite (keyStoreNotFound_eq u key s val err s1 HG), Hnf. exact IH.
Qed.

Lemma absent_trace u keys s s' :
  absent u keys s s' ->
  exists new, trace s' = trace s ++ new /\ keys_read new = keys
              /\ writes new = [] /\ init_requests new = 0%nat.
Proof.
  induction 1 as [s | key keys s s1 s2 val err HG Hnf _ IH].
  - exists []. by rewrite app_nil_r.
  - destruct IH as (new & Ht & Hk & Hw & Hi). apply keyStore_Get_trace in HG.
    exists (KvGet key val err :: new). rewrite Ht, HG, <- app_assoc.
    split; [reflexivity|].
    unfold keys_read, writes, init_requests in *. cbn. rewrite Hk. auto.
Qed.

(** The first key whose lookup is answered otherwise ends the test. *)
Lemma Init_test_keys_present u pre key post s s1 s2 val err :
  absent u pre s s1 ->
  keyStore_Get u key s1 = ((val, err), s2) ->
  is_NotFoundError err = false ->
  Init_test_keys u (pre ++ key :: post) s
  = (Some (Errorf
       "error before init: keystore value for '%s' already exists or encounter error when getting key"
       [fmt.Str key]), s2).
Proof.
  induction 1 as [s | key' keys s s' s1 val' err' HG' Hnf' _ IH]; intros HG Hnf.
  - cbn [app Init_test_keys]. unfold bind.
    rewrite (keyStoreNotFound_eq u key s val err s2 HG), Hnf. reflexivity.
  - cbn [app Init_test_keys]. unfold bind.
    rewrite (keyStoreNotFound_eq u key' s val' err' s' HG'), Hnf'. by apply IH.
Qed.

(** One or the other happens. *)
Lemma absent_or_present u keys s :
  (exists s', absent u keys s s')
  \/ (exists pre key post s1 s2 val err,
        keys = pre ++ key :: post
        /\ absent u pre s s1
        /\ keyStore_Get u key s1 = ((val, err), s2)
        /\ is_NotFoundError err = false).
Proof.
  revert s. induction keys as [|key keys IH]; intros s.
  - left. eexists. constructor.
  - destruct (keyStore_Get u key s) as [[val err] s1] eqn:HG.
    destruct (is_NotFoundError err) eqn:Hnf.
    + destruct (IH s1) as [[s' Habs] | (pre & key' & post & s2 & s3 & val' & err' & -> & Habs & HG' & Hnf')].
      * left. exists s'. by apply (absent_cons u key keys s s1 s' val err).
      * right. exists (key :: pre), key', post, s2, s3, val', err'.
        repeat split; try assumption.
        by apply (absent_cons u key pre s s1 s2 val err).
    + right. exists [], key, keys, s, s1, val, err.
      repeat split; try assumption. constructor.
Qed.

End InitExisting.

Section InitExistingRuns.

Context {W : Type}.
Implicit Types (u : vault W) (s : state W).

Lemma keyStore_Test_trace u key s err s' :
  keyStore_Test u key s = (err, s') ->
  trace s' = trace s ++ [KvTest key err].
Proof.
  unfold keyStore_Test.
  destruct (kv.Test (keyStore u) key (world s)) as [err' w].
  intros [= <- <-]. reflexivity.
Qed.

(** The test for existing keys, when [OverwriteExisting] is off and the loop
    that lists the keys ends. *)
Lemma Init_existing_eq u fuel s :
  OverwriteExisting (config u) = false ->
  SecretShares (config u) < GoInt.max_int ->
  (Z.to_nat (SecretShares (config u) + 1) < fuel)%nat ->
  Init_existing u fuel s
  = (let (err, s') := Init_test_keys u (existing_keys u) s in (Some err, s')).
Proof.
  intros Hover Hmax Hfuel. unfold Init_existing.
  rewrite Hover, Init_unseal_keys_existing by assumption. reflexivity.
Qed.

(** The last key looked up is the unseal key for [SecretShares], one past the
    indices of [SecretShares] shares. *)
Lemma existing_keys_last u :
  0 <= SecretShares (config u) ->
  last (existing_keys u) = Some (unsealKeyForID u (SecretShares (config u))).
Proof.
  intros Hss. unfold existing_keys.
  replace (SecretShares (config u) + 1)
    with (Z.of_nat (S (Z.to_nat (SecretShares (config u))))) by lia.
  rewrite seqZ_S, map_app. cbn [map].
  change (?x :: ?l ++ [?y]) with ((x :: l) ++ [y]). rewrite last_snoc.
  do 2 f_equal. lia.
Qed.

(** An error of the test for existing keys is the result of [Init]. *)
Lemma Init_existing_aborts u fuel s0 s e s' :
  keyStore_Test u (testKey u) s0 = (None, s) ->
  Init_existing u fuel s = (Some (Some e), s') ->
  Init u fuel s0 = (Some (Some e), s').
Proof. intros HT HE. unfold Init, bind. rewrite HT, HE. reflexivity. Qed.

(** With [OverwriteExisting] off and [SecretShares] the largest [int], the
    test for existing keys never gets to its first lookup. *)
Lemma Init_existing_max_int u fuel s :
  OverwriteExisting (config u) = false ->
  SecretShares (config u) = GoInt.max_int ->
  Init_existing u fuel s = (None, s).
Proof.
  intros Hover Hmax. unfold Init_existing. rewrite Hover. cbn [negb].
  rewrite Init_unseal_keys_max_int; [reflexivity | assumption |].
  unfold GoInt.in_range, GoInt.min_int, GoInt.max_int. lia.
Qed.

End InitExistingRuns.

(** C6, at the input where the code fails it.  [SecretShares] is the
    largest [int], [OverwriteExisting] is off and the key store holds the
    root key.  The condition [i <= SecretShares] of the loop of lines 116-118
    holds of every [int], so [Init] makes its probe of the key store and then
    stays in that loop however many turns it is given: it returns nothing,
    no error either, and never looks up the root key.  No request goes to
    Vault. *)
Theorem Init_existing_root_max_int :
  OverwriteExisting (config (Mem.new prod_max)) = false
  /\ SecretShares (config (Mem.new prod_max)) = 9223372036854775807
  /\ Mem.entries (world prod_again) !! rootTokenKey (Mem.new prod_max)
     = Some (bytes_of_string "root-token")
  /\ is_NotFoundError
       (keyStore_Get (Mem.new prod_max) (rootTokenKey (Mem.new prod_max)) prod_again).1.2
     = false
  /\ forall fuel,
       (Init (Mem.new prod_max) fuel prod_again).1 = None
       /\ calls (Init (Mem.new prod_max) fuel) prod_again = [KvTest "prod-test" None].
Proof.
  split; [reflexivity|]. split; [reflexivity|].
  split; [vm_compute; reflexivity|]. split; [vm_compute; reflexivity|].
  intros fuel.
  pose (u := Mem.new prod_max).
  pose (s1 := (keyStore_Test u (testKey u) prod_again).2).
  assert (HT : keyStore_Test u (testKey u) prod_again = (None, s1))
    by (vm_compute; reflexivity).
  assert (Hrun : Init u fuel prod_again = (None, s1)).
  { unfold Init, bind. rewrite HT.
    rewrite Init_existing_max_int; reflexivity. }
  fold u. rewrite Hrun. split; [reflexivity|].
  apply calls_eq. rewrite Hrun. reflexivity.
Qed.

(** ** Writes *)

Section Writes.

Context {W : Type}.
Implicit Types (u : vault W) (s : state W).

Lemma guarded_nil : guarded [].
Proof. intros n key val err H. discriminate H. Qed.

Lemma guarded_app a b : guarded a -> guarded b -> guarded (a ++ b).
Proof.
  intros Ha Hb n key val err H.
  destruct (decide (n < length a)%nat) as [Hlt|Hge].
  - rewrite lookup_app_l in H by assumption.
    destruct (Ha n key val err H) as (m & val' & err' & -> & Hm & Hnf).
    exists m, val', err'. repeat split; [|assumption].
    rewrite lookup_app_l by lia. assumption.
  - rewrite lookup_app_r in H by lia.
    destruct (Hb _ key val err H) as (m & val' & err' & Hn & Hm & Hnf).
    exists (length a + m)%nat, val', err'. repeat split; [lia| |assumption].
    rewrite lookup_app_r by lia.
    replace (length a + m - length a)%nat with m by lia. assumption.
Qed.

(** A call that is no write is guarded. *)
Lemma guarded_singleton c : is_write c = false -> guarded [c].
Proof.
  intros Hc [|n] key val err H; cbn in H; [|discriminate H].
  injection H as ->. discriminate Hc.
Qed.

(** [keyStoreSet]: with [OverwriteExisting] off, the write follows a lookup
    of the key that was answered with the not-found error. *)
Lemma keyStoreSet_guarded u key val :
  OverwriteExisting (config u) = false ->
  emits guarded (keyStoreSet u key val).
Proof.
  intros Hover s. unfold keyStoreSet, keyStoreNotFound, bind. rewrite Hover. cbn [negb].
  destruct (keyStore_Get u key s) as [[val' err'] s1] eqn:HG.
  apply keyStore_Get_trace in HG. cbn [ret].
  destruct (is_NotFoundError err') eqn:Hnf; cbn [negb].
  - destruct (keyStore_Set u key val s1) as [e s2] eqn:HS.
    apply keyStore_Set_trace in HS. cbn [snd].
    exists [KvGet key val' err'; KvSet key val e].
    split; [by rewrite HS, HG, <- app_assoc|].
    intros [|[|n]] k v e' H; cbn in H; try discriminate H.
    injection H as <- <- <-. exists 0%nat, val', err'. auto.
  - exists [KvGet key val' err']. split; [assumption|].
    by apply guarded_singleton.
Qed.

(** [keyStoreSet] reads and writes its key only. *)
Lemma emits_keyStoreSet (Q : list call -> Prop) u key val :
  Q [] ->
  (forall a b, Q a -> Q b -> Q (a ++ b)) ->
  (forall val' err, Q [KvGet key val' err]) ->
  (forall err, Q [KvSet key val err]) ->
  emits Q (keyStoreSet u key val).
Proof.
  intros Hnil Happ HG HS. unfold keyStoreSet.
  destruct (negb _); [|by apply emits_Set].
  apply emits_bind; [assumption| |].
  - unfold keyStoreNotFound. apply emits_bind; [assumption|by apply emits_Get|].
    intros [v e]. by apply emits_ret.
  - intros [|]; cbn [negb]; [by apply emits_Set | by apply emits_ret].
Qed.

(** [keyStoreSet], when it succeeds, has made one write, of the value under
    the key. *)
Lemma keyStoreSet_ok_trace u key val s s' :
  keyStoreSet u key val s = (None, s') ->
  exists new,
    trace s' = trace s ++ new
    /\ writes new = [(key, val)] /\ List.filter is_init_request new = [].
Proof.
  unfold keyStoreSet, keyStoreNotFound, bind.
  destruct (negb (OverwriteExisting (config u))).
  - destruct (keyStore_Get u key s) as [[val' err'] s1] eqn:HG. cbn [ret].
    destruct (is_NotFoundError err'); cbn [negb]; [|discriminate].
    intros HS. apply keyStore_Get_trace in HG. apply keyStore_Set_trace in HS.
    exists [KvGet key val' err'; KvSet key val None].
    rewrite HS, HG, <- app_assoc. auto.
  - intros HS. apply keyStore_Set_trace in HS. exists [KvSet key val None]. auto.
Qed.

(** A refused lookup blocks the write. *)
Lemma keyStoreSet_refuses u key val s val' err s1 :
  OverwriteExisting (config u) = false ->
  keyStore_Get u key s = ((val', err), s1) ->
  is_NotFoundError err = false ->
  keyStoreSet u key val s
  = (Some (Errorf
       "error setting key '%s': it already exists or encounter error when getting key"
       [fmt.Str key]), s1).
Proof.
  intros Hover HG Hnf. unfold keyStoreSet. rewrite Hover. cbn [negb]. unfold bind.
  rewrite (keyStoreNotFound_eq u key s val' err s1 HG), Hnf. reflexivity.
Qed.

(** C9. With [StoreRootToken] off, no call of [Init] is a write to the root
    key, whatever [OverwriteExisting] is, whatever the key store and Vault
    answer and however far [Init] gets; so the root key is written only when
    [StoreRootToken] is on. *)
Theorem Init_root_token_not_stored u fuel s :
  StoreRootToken (config u) = false ->
  forall val err, KvSet (rootTokenKey u) val err ∉ calls (Init u fuel) s.
Proof.
  intros Hstore.
  assert (Hnil : no_root_write u []).
  { intros val err H. by apply elem_of_nil in H. }
  assert (Happ : forall a b,
    no_root_write u a -> no_root_write u b -> no_root_write u (a ++ b)).
  { intros a b Ha Hb val err H. apply elem_of_app in H as [H|H].
    - by apply (Ha val err).
    - by apply (Hb val err). }
  assert (Hone : forall c,
    (forall val err, c <> KvSet (rootTokenKey u) val err) -> no_root_write u [c]).
  { intros c Hc val err H. apply list_elem_of_singleton in H. by apply (Hc val err). }
  apply (emits_calls (no_root_write u) (Init u fuel) s).
  apply emits_Init; try assumption.
  - intros key val err. by apply Hone.
  - intros key err. by apply Hone.
  - intros req resp err. by apply Hone.
  - intros j val. apply emits_keyStoreSet; try assumption.
    + intros val' err. by apply Hone.
    + intros err. apply Hone. intros val' err' [= H _ _].
      by apply (rootTokenKey_not_unseal u j).
  - rewrite Hstore. discriminate.
Qed.

End Writes.

(** The five shares are written, the root token is not. *)
Lemma Init_root_token_not_stored_prod :
  (forall val err,
     KvSet "prod-root" val err ∉ calls (Init (Mem.new prod_no_root) 7) prod_fresh)
  /\ writes (calls (Init (Mem.new prod_no_root) 7) prod_fresh)
     = unseal_entries (Mem.new prod_no_root) 0 prod_keys.
Proof.
  split.
  - exact (Init_root_token_not_stored (Mem.new prod_no_root) 7 prod_fresh eq_refl).
  - vm_compute. reflexivity.
Defined.

Section NoClobber.

Context {W : Type}.
Implicit Types (u : vault W) (s : state W).

Lemma emits_guarded_Init u fuel :
  OverwriteExisting (config u) = false -> emits guarded (Init u fuel).
Proof.
  intros Hover. apply emits_Init.
  - apply guarded_nil.
  - apply guarded_app.
  - intros. by apply guarded_singleton.
  - intros. by apply guarded_singleton.
  - intros. by apply guarded_singleton.
  - intros. by apply keyStoreSet_guarded.
  - intros. by apply keyStoreSet_guarded.
Qed.

Lemma emits_guarded_Unseal u fuel : emits guarded (Unseal u fuel).
Proof.
  apply emits_Unseal_loop.
  - apply guarded_nil.
  - apply guarded_app.
  - intros. by apply guarded_singleton.
  - intros. by apply guarded_singleton.
Qed.

Lemma emits_guarded_Sealed u : emits guarded (Sealed u).
Proof.
  unfold Sealed. apply emits_bind; [apply guarded_app| |].
  - apply emits_SealStatus. intros. by apply guarded_singleton.
  - intros [resp [e|]]; apply emits_ret, guarded_nil.
Qed.

Lemma emits_guarded_CheckReadWriteAccess u : emits guarded (CheckReadWriteAccess u).
Proof.
  unfold CheckReadWriteAccess. apply emits_bind; [apply guarded_app| |].
  - apply emits_CheckWriteAccess. intros. by apply guarded_singleton.
  - intros [e|]; apply emits_ret, guarded_nil.
Qed.

(** With [OverwriteExisting] off, [keyStoreSet] leaves a value the key store
    holds where it is, when the key store is lawful and honest. *)
Lemma keyStoreSet_keeps u contents key val s v :
  OverwriteExisting (config u) = false ->
  lawful (keyStore u) contents ->
  honest (keyStore u) contents ->
  contents (world s) !! key = Some v ->
  contents (world (keyStoreSet u key val s).2) !! key = Some v.
Proof.
  intros Hover Hlaw Hhonest Hv.
  destruct (keyStore_Get u key s) as [[val' err] s1] eqn:HG.
  assert (Hs1 : contents (world s1) = contents (world s)).
  { unfold keyStore_Get in HG.
    pose proof (Get_contents _ _ Hlaw key (world s)) as Hc.
    destruct (kv.Get (keyStore u) key (world s)) as [[v' e'] w].
    injection HG as _ _ <-. exact Hc. }
  assert (Hnf : is_NotFoundError err = false).
  { destruct (is_NotFoundError err) eqn:Hnf; [|reflexivity].
    pose proof (Hhonest key (world s)) as Hh.
    unfold keyStore_Get in HG.
    destruct (kv.Get (keyStore u) key (world s)) as [[v' e'] w].
    injection HG as _ <- _. cbn in Hh. rewrite (Hh Hnf) in Hv. discriminate Hv. }
  rewrite (keyStoreSet_refuses u key val s val' err s1 Hover HG Hnf).
  cbn [snd]. by rewrite Hs1.
Qed.

(** C10. With [OverwriteExisting] off, in the calls of every operation a
    write comes right after a lookup of the same key that failed with the
    not-found error: so it is for [Init], whose writes are those of the
    shares and of the root token, and the other operations do not write.
    Any other answer to the lookup, be it the value or another error, makes
    [keyStoreSet] return an error after that lookup, without a write; hence
    a lawful and honest key store keeps a value it holds. *)
Theorem no_clobber u fuel s :
  OverwriteExisting (config u) = false ->
  guarded (calls (Init u fuel) s)
  /\ guarded (calls (Unseal u fuel) s)
  /\ guarded (calls (Sealed u) s)
  /\ guarded (calls (CheckReadWriteAccess u) s)
  /\ (forall key val val' err s1,
        keyStore_Get u key s = ((val', err), s1) ->
        is_NotFoundError err = false ->
        keyStoreSet u key val s = (Some (refused_error key), s1)
        /\ calls (keyStoreSet u key val) s = [KvGet key val' err])
  /\ (forall contents key val v,
        lawful (keyStore u) contents ->
        honest (keyStore u) contents ->
        contents (world s) !! key = Some v ->
        contents (world (keyStoreSet u key val s).2) !! key = Some v).
Proof.
  intros Hover.
  split; [by apply (emits_calls guarded (Init u fuel) s), emits_guarded_Init|].
  split; [apply (emits_calls guarded (Unseal u fuel) s), emits_guarded_Unseal|].
  split; [apply (emits_calls guarded (Sealed u) s), emits_guarded_Sealed|].
  split; [apply (emits_calls guarded (CheckReadWriteAccess u) s),
            emits_guarded_CheckReadWriteAccess|].
  split.
  - intros key val val' err s1 HG Hnf.
    pose proof (keyStoreSet_refuses u key val s val' err s1 Hover HG Hnf) as Hrun.
    split; [exact Hrun|].
    apply calls_eq. rewrite Hrun. cbn [snd].
    exact (keyStore_Get_trace u key s val' err s1 HG).
  - intros contents key val v Hlaw Hhonest Hv.
    by apply keyStoreSet_keeps.
Qed.

End NoClobber.

(** Nothing is written over in the scenario of the specification, and a
    second write of the root key is refused. *)
Lemma no_clobber_prod :
  guarded (calls (Init (Mem.new prod) 7) prod_fresh)
  /\ writes (calls (Init (Mem.new prod) 7) prod_fresh)
     = unseal_entries (Mem.new prod) 0 prod_keys
       ++ [("prod-root", bytes_of_string "root-token")]
  /\ (keyStoreSet (Mem.new prod) "prod-root" (bytes_of_string "other") prod_sealed).1
     = Some (refused_error "prod-root").
Proof.
  destruct (no_clobber (Mem.new prod) 7 prod_fresh eq_refl) as (H1 & _).
  split; [exact H1|]. split; vm_compute; reflexivity.
Defined.

(** ** [Init]: what the key store holds afterwards *)

Section InitWrites.

Context {W : Type}.
Implicit Types (u : vault W) (s : state W).

Variable contents : W -> gmap string bytes.

Lemma keyStore_Get_contents u key s r s' :
  lawful (keyStore u) contents ->
  keyStore_Get u key s = (r, s') ->
  contents (world s') = contents (world s).
Proof.
  intros Hlaw. unfold keyStore_Get.
  pose proof (Get_contents _ _ Hlaw key (world s)) as Hc.
  destruct (kv.Get (keyStore u) key (world s)) as [[val err] w].
  intros [= _ <-]. exact Hc.
Qed.

Lemma keyStore_Set_contents u key val s s' :
  lawful (keyStore u) contents ->
  keyStore_Set u key val s = (None, s') ->
  contents (world s') = <[key := val]> (contents (world s)).
Proof.
  intros Hlaw. unfold keyStore_Set.
  pose proof (Set_contents _ _ Hlaw key val (world s)) as Hc.
  destruct (kv.Set_ (keyStore u) key val (world s)) as [err w].
  intros [= -> <-]. by apply Hc.
Qed.

Lemma keyStore_Set_others u key val s key' :
  lawful (keyStore u) contents ->
  key' <> key ->
  contents (world (keyStore_Set u key val s).2) !! key' = contents (world s) !! key'.
Proof.
  intros Hlaw Hne. unfold keyStore_Set.
  pose proof (Set_others _ _ Hlaw key val (world s) key' Hne) as Hc.
  destruct (kv.Set_ (keyStore u) key val (world s)) as [err w]. exact Hc.
Qed.

(** [keyStoreSet], when it succeeds, puts the value under the key. *)
Lemma keyStoreSet_ok u key val s s' :
  lawful (keyStore u) contents ->
  keyStoreSet u key val s = (None, s') ->
  contents (world s') = <[key := val]> (contents (world s)).
Proof.
  intros Hlaw. unfold keyStoreSet, keyStoreNotFound, bind.
  destruct (negb (OverwriteExisting (config u))).
  - destruct (keyStore_Get u key s) as [[val' err'] s1] eqn:HG. cbn [ret].
    destruct (is_NotFoundError err'); cbn [negb]; [|discriminate].
    intros HS. rewrite (keyStore_Set_contents u key val s1 s' Hlaw HS).
    by rewrite (keyStore_Get_contents u key s _ s1 Hlaw HG).
  - intros HS. by apply (keyStore_Set_contents u).
Qed.

(** [keyStoreSet], failed or not, leaves the other keys alone. *)
Lemma keyStoreSet_others u key val s key' :
  lawful (keyStore u) contents ->
  key' <> key ->
  contents (world (keyStoreSet u key val s).2) !! key' = contents (world s) !! key'.
Proof.
  intros Hlaw Hne. unfold keyStoreSet, keyStoreNotFound, bind.
  destruct (negb (OverwriteExisting (config u))).
  - destruct (keyStore_Get u key s) as [[val' err'] s1] eqn:HG. cbn [ret].
    pose proof (keyStore_Get_contents u key s _ s1 Hlaw HG) as Hs1.
    destruct (is_NotFoundError err'); cbn [negb].
    + rewrite (keyStore_Set_others u key val s1 key' Hlaw Hne). by rewrite Hs1.
    + unfold ret. cbn [snd]. by rewrite Hs1.
  - by apply keyStore_Set_others.
Qed.

(** The shares stored are in the key store, each under its key, and the
    keys that are not theirs hold what they held. *)
Lemma stored_contents u i shares s s' :
  lawful (keyStore u) contents ->
  stored u i shares s s' ->
  (forall (j : nat) share,
     shares !! j = Some share ->
     contents (world s') !! unsealKeyForID u (i + Z.of_nat j)
     = Some (bytes_of_string share))
  /\ (forall key,
        (forall j : nat, (j < length shares)%nat ->
                         key <> unsealKeyForID u (i + Z.of_nat j)) ->
        contents (world s') !! key = contents (world s) !! key).
Proof.
  intros Hlaw.
  induction 1 as [i s | i k shares s s1 s2 HS _ IH]; [split; [intros j share [=]|auto]|].
  destruct IH as [IHin IHout].
  pose proof (keyStoreSet_ok u _ _ s s1 Hlaw HS) as Hc.
  split.
  - intros [|j] share Hj.
    + injection Hj as <-. rewrite Z.add_0_r, IHout.
      * rewrite Hc. apply lookup_insert_eq.
      * intros j _ Heq. apply unsealKeyForID_inj in Heq. lia.
    + cbn in Hj. rewrite <- (IHin j share Hj). f_equal. f_equal. lia.
  - intros key Hkey. rewrite IHout.
    + rewrite Hc. apply lookup_insert_ne.
      specialize (Hkey 0%nat ltac:(cbn; lia)). rewrite Z.add_0_r in Hkey. congruence.
    + intros j Hj. specialize (Hkey (S j) ltac:(cbn; lia)).
      replace (i + 1 + Z.of_nat j) with (i + Z.of_nat (S j)) by lia. exact Hkey.
Qed.

(** The writes of the shares stored. *)
Lemma stored_trace u i shares s s' :
  stored u i shares s s' ->
  exists new,
    trace s' = trace s ++ new
    /\ writes new = unseal_entries u i shares
    /\ List.filter is_init_request new = [].
Proof.
  induction 1 as [i s | i k shares s s1 s2 HS _ IH].
  - exists []. by rewrite app_nil_r.
  - destruct (keyStoreSet_ok_trace u _ _ s s1 HS) as (n1 & H1 & W1 & I1).
    destruct IH as (n2 & H2 & W2 & I2).
    exists (n1 ++ n2). rewrite H2, H1, <- app_assoc.
    split; [reflexivity|].
    unfold writes in *. rewrite omap_app, List.filter_app, W1, W2, I1, I2.
    auto.
Qed.

(** The loop over the shares: it stores them all, or stops at the first
    one it cannot store. *)
Lemma Init_store_keys_stored u i shares s s' :
  stored u i shares s s' -> Init_store_keys u i shares s = (None, s').
Proof.
  induction 1 as [i s | i k shares s s1 s2 HS _ IH]; [reflexivity|].
  cbn [Init_store_keys]. unfold bind. rewrite HS. exact IH.
Qed.

Lemma Init_store_keys_fails u i pre k post s s1 s2 e :
  stored u i pre s s1 ->
  keyStoreSet u (unsealKeyForID u (i + Z.of_nat (length pre))) (bytes_of_string k) s1
  = (Some e, s2) ->
  Init_store_keys u i (pre ++ k :: post) s
  = (Some (Errorf "error storing unseal key '%s': %s"
             [fmt.Str (unsealKeyForID u (i + Z.of_nat (length pre)));
              fmt.Str (Error e)]), s2).
Proof.
  induction 1 as [i s | i k' shares s s' s1 HS _ IH]; intros HF.
  - cbn [app length Init_store_keys] in *. rewrite Z.add_0_r in *.
    unfold bind. rewrite HF. reflexivity.
  - cbn [app Init_store_keys]. unfold bind. rewrite HS.
    replace (i + Z.of_nat (length (k' :: shares)))
      with (i + 1 + Z.of_nat (length shares)) in * by (cbn [length]; lia).
    by apply IH.
Qed.

Lemma Init_store_keys_inv u i shares s s' :
  Init_store_keys u i shares s = (None, s') -> stored u i shares s s'.
Proof.
  revert i s. induction shares as [|k shares IH]; intros i s; cbn [Init_store_keys].
  - intros [= <-]. constructor.
  - unfold bind.
    destruct (keyStoreSet u (unsealKeyForID u i) (bytes_of_string k) s)
      as [[e|] s1] eqn:HS; [discriminate|].
    intros H. apply (stored_cons u i k shares s s1 s'); [assumption | by apply IH].
Qed.

End InitWrites.

Section InitRuns.

Context {W : Type}.
Implicit Types (u : vault W) (s : state W).

Lemma cl_Init_trace u req s resp err s' :
  cl_Init u req s = ((resp, err), s') ->
  trace s' = trace s ++ [SysInit req resp err].
Proof.
  unfold cl_Init.
  destruct (api.Init (cl u) req (world s)) as [[resp' err'] w].
  intros [= <- <- <-]. reflexivity.
Qed.

(** Up to its writes [Init] makes one request to Vault, and no write. *)
Lemma requested_trace u fuel s resp s' :
  requested u fuel s resp s' ->
  exists new,
    trace s' = trace s ++ new
    /\ writes new = []
    /\ List.filter is_init_request new
       = [SysInit (api.mkInitRequest (SecretShares (config u))
                     (SecretThreshold (config u))) resp None].
Proof.
  intros (s1 & s2 & HT & HE & HI).
  apply keyStore_Test_trace in HT. apply cl_Init_trace in HI.
  pose (Q := fun t : list call => writes t = [] /\ List.filter is_init_request t = []).
  assert (HQ : emits Q (Init_existing u fuel)).
  { apply emits_Init_existing; unfold Q.
    - auto.
    - intros a b [Wa Ia] [Wb Ib]. unfold writes in *.
      rewrite omap_app, List.filter_app, Wa, Wb, Ia, Ib. auto.
    - auto. }
  destruct (HQ s1) as (new & Ht & Wn & In). rewrite HE in Ht. cbn [snd] in Ht.
  eexists ([KvTest (testKey u) None] ++ new ++ [SysInit _ resp None]).
  split; [by rewrite HI, Ht, HT, <- !app_assoc|].
  unfold writes in *. rewrite !omap_app, !List.filter_app, Wn, In. auto.
Qed.

(** A successful [Init] has made its request and stored every share of the
    answer, and the root token if it is to be stored. *)
Lemma Init_success_inv u fuel s s' :
  Init u fuel s = (Some None, s') ->
  exists resp s3 s4,
    requested u fuel s resp s3
    /\ stored u 0 (api.Keys resp) s3 s4
    /\ (if StoreRootToken (config u)
        then keyStoreSet u (rootTokenKey u) (bytes_of_string (api.RootToken resp)) s4
             = (None, s')
        else s' = s4).
Proof.
  unfold Init, bind.
  destruct (keyStore_Test u (testKey u) s) as [[e|] s1] eqn:HT; [discriminate|].
  destruct (Init_existing u fuel s1) as [[[e|]|] s2] eqn:HE; try discriminate.
  unfold Init_vault, bind.
  destruct (cl_Init u _ s2) as [[resp [e|]] s3] eqn:HI; [discriminate|].
  destruct (Init_store_keys u 0 (api.Keys resp) s3) as [[e|] s4] eqn:HS; [discriminate|].
  unfold Init_root_token, bind.
  intros Hroot. exists resp, s3, s4.
  split; [by exists s1, s2|].
  split; [by apply Init_store_keys_inv|].
  destruct (StoreRootToken (config u)).
  - destruct (keyStoreSet u (rootTokenKey u) _ s4) as [[e|] s5]; [discriminate|].
    by injection Hroot as <-.
  - by injection Hroot as <-.
Qed.

(** The keys of the entries written for the shares are the unseal keys for
    the indices from [i] on, as many as there are shares. *)
Lemma unseal_entries_keys u i shares :
  (unseal_entries u i shares).*1
  = map (unsealKeyForID u) (seqZ i (Z.of_nat (length shares))).
Proof.
  revert i. induction shares as [|k shares IH]; intros i; [reflexivity|].
  cbn [unseal_entries fmap list_fmap length]. rewrite seqZ_cons by lia.
  cbn [map fst]. f_equal. rewrite IH. do 2 f_equal; lia.
Qed.

(** C1, as the code has it.  After a successful [Init], which made one
    initialization request, a lawful key store holds, for every index [i]
    below the number of shares in the answer of Vault, the [i]-th share of
    the answer under the unseal key for [i]; the writes of [Init] are those
    shares, in the order of the answer, under the unseal keys for 0, 1, ...,
    followed by the root token if it is to be stored.  The indices written
    are those below the number of shares returned: they are the indices
    below [SecretShares] when Vault returns [SecretShares] shares. *)
Theorem Init_stores_returned_shares u fuel s s' contents :
  lawful (keyStore u) contents ->
  Init u fuel s = (Some None, s') ->
  exists resp,
    List.filter is_init_request (calls (Init u fuel) s)
    = [SysInit (api.mkInitRequest (SecretShares (config u)) (SecretThreshold (config u)))
         resp None]
    /\ (forall (i : nat) share,
          api.Keys resp !! i = Some share ->
          contents (world s') !! unsealKeyForID u (Z.of_nat i)
          = Some (bytes_of_string share))
    /\ writes (calls (Init u fuel) s)
       = unseal_entries u 0 (api.Keys resp)
         ++ (if StoreRootToken (config u)
             then [(rootTokenKey u, bytes_of_string (api.RootToken resp))]
             else [])
    /\ (unseal_entries u 0 (api.Keys resp)).*1
       = map (unsealKeyForID u) (seqZ 0 (Z.of_nat (length (api.Keys resp))))
    /\ (Z.of_nat (length (api.Keys resp)) = SecretShares (config u) ->
        (unseal_entries u 0 (api.Keys resp)).*1
        = map (unsealKeyForID u) (seqZ 0 (SecretShares (config u)))
        /\ forall i, 0 <= i < SecretShares (config u) ->
             exists share,
               api.Keys resp !! Z.to_nat i = Some share
               /\ contents (world s') !! unsealKeyForID u i
                  = Some (bytes_of_string share)).
Proof.
  intros Hlaw Hrun.
  destruct (Init_success_inv u fuel s s' Hrun) as (resp & s3 & s4 & Hreq & Hst & Hroot).
  destruct (requested_trace u fuel s resp s3 Hreq) as (n1 & T1 & W1 & I1).
  destruct (stored_trace u 0 _ s3 s4 Hst) as (n2 & T2 & W2 & I2).
  destruct (stored_contents contents u 0 _ s3 s4 Hlaw Hst) as [Hin _].
  assert (Hlast : exists n3,
    trace s' = trace s4 ++ n3
    /\ writes n3 = (if StoreRootToken (config u)
                    then [(rootTokenKey u, bytes_of_string (api.RootToken resp))]
                    else [])
    /\ List.filter is_init_request n3 = []
    /\ forall i, contents (world s') !! unsealKeyForID u i
                 = contents (world s4) !! unsealKeyForID u i).
  { destruct (StoreRootToken (config u)).
    - destruct (keyStoreSet_ok_trace u _ _ s4 s' Hroot) as (n3 & T3 & W3 & I3).
      exists n3. repeat split; try assumption.
      intros i. rewrite (keyStoreSet_ok contents u _ _ s4 s' Hlaw Hroot).
      apply lookup_insert_ne, rootTokenKey_not_unseal.
    - subst s'. exists []. rewrite app_nil_r. auto. }
  destruct Hlast as (n3 & T3 & W3 & I3 & Hkeep).
  assert (Hcalls : calls (Init u fuel) s = n1 ++ n2 ++ n3).
  { apply calls_eq. rewrite Hrun. cbn [snd]. by rewrite T3, T2, T1, <- !app_assoc. }
  assert (Hheld : forall (i : nat) share,
    api.Keys resp !! i = Some share ->
    contents (world s') !! unsealKeyForID u (Z.of_nat i) = Some (bytes_of_string share)).
  { intros i share Hi. rewrite Hkeep. by apply (Hin i share). }
  exists resp. rewrite Hcalls.
  split; [rewrite !List.filter_app, I1, I2, I3; reflexivity|].
  split; [exact Hheld|].
  split; [unfold writes in *; by rewrite !omap_app, W1, W2, W3|].
  split; [apply unseal_entries_keys|].
  intros Hlen. split; [by rewrite unseal_entries_keys, Hlen|].
  intros i Hi.
  destruct (lookup_lt_is_Some_2 (api.Keys resp) (Z.to_nat i)) as [share Hshare]; [lia|].
  exists share. split; [assumption|].
  rewrite <- (Hheld _ share Hshare). f_equal. f_equal. lia.
Qed.

(** C8. Once [Init] has made its request, if the shares before index [j]
    are stored and the write of the share at [j] fails, [Init] returns the
    error of that share, in the state the failed write left, and a lawful
    key store still holds every share stored before; likewise, if all the
    shares are stored and the write of the root token fails, [Init] returns
    the error of the root token and the key store still holds every share.
    Nothing is taken back. *)
Theorem Init_partial_writes_remain u fuel s resp s3 contents :
  lawful (keyStore u) contents ->
  requested u fuel s resp s3 ->
  (forall pre k post s4 s5 e,
     api.Keys resp = pre ++ k :: post ->
     stored u 0 pre s3 s4 ->
     keyStoreSet u (unsealKeyForID u (Z.of_nat (length pre))) (bytes_of_string k) s4
     = (Some e, s5) ->
     Init u fuel s
     = (Some (Some (Errorf "error storing unseal key '%s': %s"
                      [fmt.Str (unsealKeyForID u (Z.of_nat (length pre)));
                       fmt.Str (Error e)])), s5)
     /\ forall (i : nat) share,
          pre !! i = Some share ->
          contents (world s5) !! unsealKeyForID u (Z.of_nat i)
          = Some (bytes_of_string share))
  /\ (forall s4 s5 e,
        StoreRootToken (config u) = true ->
        stored u 0 (api.Keys resp) s3 s4 ->
        keyStoreSet u (rootTokenKey u) (bytes_of_string (api.RootToken resp)) s4
        = (Some e, s5) ->
        Init u fuel s
        = (Some (Some (Errorf "error storing root token '%s' in key'%s'"
                         [fmt.Str (api.RootToken resp); fmt.Str (rootTokenKey u)])), s5)
        /\ forall (i : nat) share,
             api.Keys resp !! i = Some share ->
             contents (world s5) !! unsealKeyForID u (Z.of_nat i)
             = Some (bytes_of_string share)).
Proof.
  intros Hlaw (s1 & s2 & HT & HE & HI). split.
  - intros pre k post s4 s5 e Hkeys Hst HF.
    pose proof (Init_store_keys_fails u 0 pre k post s3 s4 s5 e Hst HF) as Hloop.
    split.
    + unfold Init, bind. rewrite HT, HE. unfold Init_vault, bind.
      rewrite HI, Hkeys, Hloop. reflexivity.
    + intros i share Hi.
      destruct (stored_contents contents u 0 pre s3 s4 Hlaw Hst) as [Hin _].
      replace s5 with (keyStoreSet u (unsealKeyForID u (Z.of_nat (length pre)))
                         (bytes_of_string k) s4).2 by (by rewrite HF).
      rewrite keyStoreSet_others; [by apply (Hin i share)|assumption|].
      intros Heq. apply unsealKeyForID_inj in Heq.
      apply lookup_lt_Some in Hi. lia.
  - intros s4 s5 e Hstore Hst HF.
    split.
    + unfold Init, bind. rewrite HT, HE. unfold Init_vault, bind.
      rewrite HI, (Init_store_keys_stored u 0 _ s3 s4 Hst).
      unfold Init_root_token, bind. rewrite Hstore, HF. reflexivity.
    + intros i share Hi.
      destruct (stored_contents contents u 0 _ s3 s4 Hlaw Hst) as [Hin _].
      replace s5 with (keyStoreSet u (rootTokenKey u)
                         (bytes_of_string (api.RootToken resp)) s4).2 by (by rewrite HF).
      rewrite keyStoreSet_others; [by apply (Hin i share)|assumption|].
      intros Heq. symmetry in Heq. by apply rootTokenKey_not_unseal in Heq.
Qed.

End InitRuns.

(** ** The in-memory key store is lawful and honest *)

Lemma Mem_lawful : lawful Mem.service Mem.entries.
Proof.
  split.
  - intros key w. cbn. unfold Mem.Get.
    destruct (bool_decide _); [reflexivity|].
    destruct (Mem.entries w !! key); reflexivity.
  - intros key val w. cbn. unfold Mem.Set_.
    destruct (bool_decide _); [discriminate | reflexivity].
  - intros key val w key' Hne. cbn. unfold Mem.Set_.
    destruct (bool_decide _); [reflexivity|]. cbn. by apply lookup_insert_ne.
Qed.

Lemma Mem_honest : honest Mem.service Mem.entries.
Proof.
  intros key w. cbn. unfold Mem.Get.
  destruct (bool_decide _); [discriminate|].
  destruct (Mem.entries w !! key); [discriminate | reflexivity].
Qed.

(** The scenario of the specification: after [Init] the key store holds the
    five shares and the root token, written in this order. *)
Lemma Init_stores_returned_shares_prod :
  Mem.entries (world (Init (Mem.new prod) 7 prod_fresh).2) !! "prod-unseal-3"
  = Some (bytes_of_string "k3")
  /\ (writes (calls (Init (Mem.new prod) 7) prod_fresh)).*1
     = ["prod-unseal-0"; "prod-unseal-1"; "prod-unseal-2"; "prod-unseal-3";
        "prod-unseal-4"; "prod-root"].
Proof.
  destruct (Init_stores_returned_shares (Mem.new prod) 7 prod_fresh
              (Init (Mem.new prod) 7 prod_fresh).2 Mem.entries Mem_lawful)
    as (resp & Hreq & Hheld & Hwrites & _); [vm_compute; reflexivity|].
  vm_compute in Hreq. injection Hreq as <-.
  split.
  - exact (Hheld 3%nat "k3" eq_refl).
  - rewrite Hwrites. vm_compute. reflexivity.
Defined.

(** Vault returns two shares where five were asked for: [Init] succeeds,
    writes the unseal keys for 0 and 1 only, and the key store holds nothing
    under the unseal key for 2, an index below [SecretShares]. *)
Lemma Init_fewer_shares_than_requested :
  (Init (Mem.new prod) 7 prod_short).1 = Some None
  /\ SecretShares (config (Mem.new prod)) = 5
  /\ Mem.entries (world (Init (Mem.new prod) 7 prod_short).2)
       !! unsealKeyForID (Mem.new prod) 2 = None
  /\ (writes (calls (Init (Mem.new prod) 7) prod_short)).*1
     = ["prod-unseal-0"; "prod-unseal-1"; "prod-root"].
Proof. repeat split; vm_compute; reflexivity. Qed.

(** The write of the third share is refused: [Init] returns its error, and
    the first two shares stay in the key store. *)
Lemma Init_partial_writes_remain_prod :
  (Init (Mem.new prod) 7 prod_denied).1
  = Some (Some (errorString
       "error storing unseal key 'prod-unseal-2': access denied"))
  /\ Mem.entries (world (Init (Mem.new prod) 7 prod_denied).2) !! "prod-unseal-0"
     = Some (bytes_of_string "k0")
  /\ Mem.entries (world (Init (Mem.new prod) 7 prod_denied).2) !! "prod-unseal-1"
     = Some (bytes_of_string "k1").
Proof.
  pose (u := Mem.new prod).
  pose (resp := api.mkInitResponse prod_keys "root-token").
  pose (s1 := (keyStore_Test u (testKey u) prod_denied).2).
  pose (s2 := (Init_existing u 7 s1).2).
  pose (s3 := (cl_Init u (api.mkInitRequest 5 3) s2).2).
  pose (s3' := (keyStoreSet u "prod-unseal-0" (bytes_of_string "k0") s3).2).
  pose (s4 := (keyStoreSet u "prod-unseal-1" (bytes_of_string "k1") s3').2).
  pose (s5 := (keyStoreSet u "prod-unseal-2" (bytes_of_string "k2") s4).2).
  assert (Hreq : requested u 7 prod_denied resp s3).
  { exists s1, s2. repeat split; vm_compute; reflexivity. }
  destruct (Init_partial_writes_remain u 7 prod_denied resp s3
              Mem.entries Mem_lawful Hreq) as [Hshare _].
  destruct (Hshare ["k0"; "k1"] "k2" ["k3"; "k4"] s4 s5 (errorString "access denied"))
    as [Hrun Hheld].
  - reflexivity.
  - apply (stored_cons u 0 "k0" ["k1"] s3 s3' s4); [vm_compute; reflexivity|].
    apply (stored_cons u 1 "k1" [] s3' s4 s4); [vm_compute; reflexivity|].
    apply stored_nil.
  - vm_compute. reflexivity.
  - fold u. rewrite Hrun. cbn [fst snd].
    split; [vm_compute; reflexivity|].
    split; [exact (Hheld 0%nat "k0" eq_refl) | exact (Hheld 1%nat "k1" eq_refl)].
Defined.

(** ** [Init]: the keys tested and the keys written *)

Section InitProbes.

Context {W : Type}.
Implicit Types (u : vault W) (s : state W).

(** A successful [Init]: its probe, its test for existing keys, its one
    request and its writes. *)
Lemma Init_success_writes u fuel s s' :
  Init u fuel s = (Some None, s') ->
  exists resp s1 s2,
    keyStore_Test u (testKey u) s = (None, s1)
    /\ Init_existing u fuel s1 = (Some None, s2)
    /\ List.filter is_init_request (calls (Init u fuel) s)
       = [SysInit (init_request u) resp None]
    /\ writes (calls (Init u fuel) s)
       = unseal_entries u 0 (api.Keys resp)
         ++ (if StoreRootToken (config u)
             then [(rootTokenKey u, bytes_of_string (api.RootToken resp))]
             else []).
Proof.
  intros Hrun.
  destruct (Init_success_inv u fuel s s' Hrun) as (resp & s3 & s4 & Hreq & Hst & Hroot).
  destruct (requested_trace u fuel s resp s3 Hreq) as (n1 & T1 & W1 & I1).
  destruct (stored_trace u 0 _ s3 s4 Hst) as (n2 & T2 & W2 & I2).
  destruct Hreq as (s1 & s2 & HT & HE & _).
  exists resp, s1, s2. split; [assumption|]. split; [assumption|].
  destruct (StoreRootToken (config u)).
  - destruct (keyStoreSet_ok_trace u _ _ s4 s' Hroot) as (n3 & T3 & W3 & I3).
    rewrite (calls_eq (Init u fuel) s (n1 ++ n2 ++ n3)).
    + unfold writes in *.
      rewrite !List.filter_app, !omap_app, I1, I2, I3, W1, W2, W3. auto.
    + rewrite Hrun. cbn [snd]. by rewrite T3, T2, T1, <- !app_assoc.
  - subst s'. rewrite (calls_eq (Init u fuel) s (n1 ++ n2)).
    + unfold writes in *.
      rewrite !List.filter_app, !omap_app, I1, I2, W1, W2, !app_nil_r. auto.
    + rewrite Hrun. cbn [snd]. by rewrite T2, T1, <- !app_assoc.
Qed.

(** C7, as the code has it.  [OverwriteExisting] is off and [SecretShares]
    is below the largest [int], so that the loop listing the keys ends.  The
    test for existing keys of [Init] lists the root key and then the unseal
    keys for the indices 0 to [SecretShares], both included, that is
    [SecretShares + 1] unseal keys, and looks them up in this order.  Either
    all of them are reported not found, all of them are read and the test
    passes; or the first key whose lookup returns anything but the not-found
    error (the key is there, or the lookup failed otherwise) ends the test,
    and [Init] returns the error naming that key without a request to Vault.
    What [Init] then writes follows the answer of Vault, not [SecretShares]:
    one unseal key for each share returned, from index 0 on, and the root
    key if the token is to be stored.  So the unseal keys tested are the
    unseal keys written and one more, that for [SecretShares], when Vault
    returns [SecretShares] shares. *)
Theorem Init_existing_probes u fuel s :
  OverwriteExisting (config u) = false ->
  SecretShares (config u) < GoInt.max_int ->
  (Z.to_nat (SecretShares (config u) + 1) < fuel)%nat ->
  Init_unseal_keys u fuel 0 [rootTokenKey u] = Some (existing_keys u)
  /\ length (existing_keys u) = S (Z.to_nat (SecretShares (config u) + 1))
  /\ (0 <= SecretShares (config u) ->
      last (existing_keys u) = Some (unsealKeyForID u (SecretShares (config u))))
  /\ ((exists s',
         absent u (existing_keys u) s s'
         /\ Init_existing u fuel s = (Some None, s')
         /\ keys_read (calls (Init_existing u fuel) s) = existing_keys u)
      \/ (exists pre key post s1 s2 val err,
            existing_keys u = pre ++ key :: post
            /\ absent u pre s s1
            /\ keyStore_Get u key s1 = ((val, err), s2)
            /\ is_NotFoundError err = false
            /\ Init_existing u fuel s = (Some (Some (existing_error key)), s2)
            /\ keys_read (calls (Init_existing u fuel) s) = pre ++ [key]
            /\ forall s0,
                 keyStore_Test u (testKey u) s0 = (None, s) ->
                 Init u fuel s0 = (Some (Some (existing_error key)), s2)
                 /\ init_requests (calls (Init u fuel) s0) = 0%nat))
  /\ (forall s0 s',
        keyStore_Test u (testKey u) s0 = (None, s) ->
        Init u fuel s0 = (Some None, s') ->
        exists resp,
          List.filter is_init_request (calls (Init u fuel) s0)
          = [SysInit (init_request u) resp None]
          /\ keys_read (calls (Init_existing u fuel) s) = existing_keys u
          /\ (writes (calls (Init u fuel) s0)).*1
             = map (unsealKeyForID u) (seqZ 0 (Z.of_nat (length (api.Keys resp))))
               ++ (if StoreRootToken (config u) then [rootTokenKey u] else [])
          /\ (Z.of_nat (length (api.Keys resp)) = SecretShares (config u) ->
              existing_keys u
              = rootTokenKey u
                :: map (unsealKeyForID u) (seqZ 0 (Z.of_nat (length (api.Keys resp))))
                   ++ [unsealKeyForID u (SecretShares (config u))])).
Proof.
  intros Hover Hmax Hfuel.
  split; [by apply Init_unseal_keys_existing|].
  split; [unfold existing_keys; cbn [length]; by rewrite length_map, length_seqZ|].
  split; [by apply existing_keys_last|].
  pose proof (Init_existing_eq u fuel s Hover Hmax Hfuel) as Heq.
  destruct (absent_or_present u (existing_keys u) s)
    as [[s' Habs] | (pre & key & post & s1 & s2 & val & err & Hkeys & Habs & HG & Hnf)].
  - rewrite (Init_test_keys_absent u _ s s' Habs) in Heq.
    destruct (absent_trace u _ s s' Habs) as (new & Ht & Hk & _).
    assert (Hread : keys_read (calls (Init_existing u fuel) s) = existing_keys u).
    { rewrite (calls_eq (Init_existing u fuel) s new); [assumption|]. by rewrite Heq. }
    split; [left; exists s'; auto|].
    intros s0 s'' HT Hrun.
    destruct (Init_success_writes u fuel s0 s'' Hrun)
      as (resp & s3 & s4 & _ & _ & Hreq & Hw).
    exists resp. split; [assumption|]. split; [assumption|].
    split.
    + rewrite Hw, fmap_app, unseal_entries_keys. f_equal.
      by destruct (StoreRootToken (config u)).
    + intros Hlen. unfold existing_keys. rewrite <- Hlen.
      replace (Z.of_nat (length (api.Keys resp)) + 1)
        with (Z.of_nat (S (length (api.Keys resp)))) by lia.
      rewrite seqZ_S, map_app. cbn [map]. by rewrite Z.add_0_l.
  - rewrite Hkeys in Heq.
    rewrite (Init_test_keys_present u pre key post s s1 s2 val err Habs HG Hnf) in Heq.
    fold (existing_error key) in Heq.
    destruct (absent_trace u _ s s1 Habs) as (new & Ht & Hk & Hw & Hi).
    pose proof (keyStore_Get_trace u key s1 val err s2 HG) as HGt.
    assert (Hs2 : trace s2 = trace s ++ (new ++ [KvGet key val err])).
    { by rewrite HGt, Ht, <- app_assoc. }
    split.
    + right. exists pre, key, post, s1, s2, val, err.
      repeat split; try assumption.
      * rewrite (calls_eq (Init_existing u fuel) s (new ++ [KvGet key val err])).
        -- unfold keys_read in *. rewrite omap_app, Hk. reflexivity.
        -- by rewrite Heq.
      * by apply (Init_existing_aborts u fuel s0 s).
      * pose proof (Init_existing_aborts u fuel s0 s _ s2 H Heq) as Hrun.
        pose proof (keyStore_Test_trace u _ s0 None s H) as HTt.
        rewrite (calls_eq (Init u fuel) s0
                   (KvTest (testKey u) None :: new ++ [KvGet key val err])).
        -- change (KvTest ?k ?e :: ?l) with ([KvTest k e] ++ l).
           rewrite !init_requests_app, Hi. reflexivity.
        -- rewrite Hrun. cbn [snd]. rewrite Hs2, HTt, <- app_assoc. reflexivity.
    + intros s0 s'' HT Hrun.
      rewrite (Init_existing_aborts u fuel s0 s _ s2 HT Heq) in Hrun. discriminate.
Qed.

End InitProbes.

(** In the scenario of the specification the test looks up seven keys, and
    [Init] writes the first five unseal keys of them and the root key. *)
Lemma Init_existing_probes_prod :
  Init_unseal_keys (Mem.new prod) 7 0 ["prod-root"]
  = Some ["prod-root"; "prod-unseal-0"; "prod-unseal-1"; "prod-unseal-2";
          "prod-unseal-3"; "prod-unseal-4"; "prod-unseal-5"]
  /\ length (existing_keys (Mem.new prod)) = 7%nat
  /\ keys_read (calls (Init_existing (Mem.new prod) 7)
                  (keyStore_Test (Mem.new prod) "prod-test" prod_fresh).2)
     = existing_keys (Mem.new prod)
  /\ (writes (calls (Init (Mem.new prod) 7) prod_fresh)).*1
     = ["prod-unseal-0"; "prod-unseal-1"; "prod-unseal-2"; "prod-unseal-3";
        "prod-unseal-4"; "prod-root"]
  /\ existing_keys (Mem.new prod)
     = "prod-root"
       :: ["prod-unseal-0"; "prod-unseal-1"; "prod-unseal-2"; "prod-unseal-3";
           "prod-unseal-4"] ++ ["prod-unseal-5"].
Proof.
  pose (u := Mem.new prod).
  pose (s := (keyStore_Test u "prod-test" prod_fresh).2).
  destruct (Init_existing_probes u 7 s) as (H1 & H2 & _ & _ & H5);
    [reflexivity | unfold GoInt.max_int; cbn; lia | cbn; lia |].
  destruct (H5 prod_fresh (Init u 7 prod_fresh).2)
    as (resp & Hreq & Hread & Hw & Hone);
    [vm_compute; reflexivity | vm_compute; reflexivity |].
  vm_compute in Hreq. injection Hreq as <-. subst s u.
  split; [exact H1|]. split; [exact H2|]. split; [exact Hread|].
  split; [rewrite Hw; vm_compute; reflexivity|].
  rewrite (Hone eq_refl). vm_compute. reflexivity.
Defined.

(** Five shares are asked for and Vault returns seven: the test for existing
    keys looks up six unseal keys, and [Init] succeeds and writes seven, one
    more than were tested, not one fewer.  And with [SecretShares] the
    largest [int] the test looks up nothing at all, however many turns it is
    given. *)
Lemma Init_writes_more_than_probed :
  SecretShares (config (Mem.new prod)) = 5
  /\ (Init (Mem.new prod) 7 prod_long).1 = Some None
  /\ keys_read (calls (Init_existing (Mem.new prod) 7)
                  (keyStore_Test (Mem.new prod) "prod-test" prod_long).2)
     = ["prod-root"; "prod-unseal-0"; "prod-unseal-1"; "prod-unseal-2";
        "prod-unseal-3"; "prod-unseal-4"; "prod-unseal-5"]
  /\ (writes (calls (Init (Mem.new prod) 7) prod_long)).*1
     = ["prod-unseal-0"; "prod-unseal-1"; "prod-unseal-2"; "prod-unseal-3";
        "prod-unseal-4"; "prod-unseal-5"; "prod-unseal-6"; "prod-root"]
  /\ (forall fuel,
        Init_existing (Mem.new prod_max) fuel prod_fresh = (None, prod_fresh)
        /\ keys_read (calls (Init_existing (Mem.new prod_max) fuel) prod_fresh) = []).
Proof.
  split; [reflexivity|]. split; [vm_compute; reflexivity|].
  split; [vm_compute; reflexivity|]. split; [vm_compute; reflexivity|].
  intros fuel.
  assert (Hrun : Init_existing (Mem.new prod_max) fuel prod_fresh = (None, prod_fresh))
    by (apply Init_existing_max_int; reflexivity).
  split; [exact Hrun|].
  rewrite (calls_eq (Init_existing (Mem.new prod_max) fuel) prod_fresh []);
    [reflexivity | by rewrite Hrun].
Qed.

(** * Further properties *)

(** ** Keys *)

(** X1. The keys of one vault never collide: two indices have different unseal
    keys, and the root key, the probe key and the unseal keys are pairwise
    different. *)
Theorem keys_never_collide {W : Type} (u : vault W) (i j : Z) :
  (unsealKeyForID u i = unsealKeyForID u j -> i = j)
  /\ rootTokenKey u <> unsealKeyForID u i
  /\ testKey u <> unsealKeyForID u i
  /\ testKey u <> rootTokenKey u.
Proof.
  split; [apply unsealKeyForID_inj|].
  split; [apply rootTokenKey_not_unseal|].
  split; [apply testKey_not_unseal | apply testKey_not_root].
Qed.

(** ** More on [Unseal] *)

Section UnsealMore.

Context {W : Type}.
Implicit Types (u : vault W) (s : state W).

(** The index of the loop is the number of turns made, reduced to an
    [int]. *)
Lemma incr_wrap z : GoInt.incr (GoInt.wrap z) = GoInt.wrap (z + 1).
Proof.
  unfold GoInt.incr, GoInt.wrap.
  replace ((z + 2 ^ 63) mod 2 ^ 64 - 2 ^ 63 + 1 + 2 ^ 63)
    with ((z + 2 ^ 63) mod 2 ^ 64 + 1) by lia.
  rewrite Zplus_mod_idemp_l. do 2 f_equal. lia.
Qed.

Lemma index_after_wrap n : index_after n = GoInt.wrap (Z.of_nat n).
Proof.
  induction n as [|n IH]; [reflexivity|].
  rewrite index_after_S, IH, incr_wrap. f_equal. lia.
Qed.

(** The calls of a run that ends, after [n] good turns, in a turn that
    fetches its share and submits it, whatever the answer. *)
Lemma Unseal_calls_answered u n s s1 s2 s3 k resp err r fuel :
  rounds u 0 n s s1 ->
  keyStore_Get u (unsealKeyForID u (index_after n)) s1 = ((k, None), s2) ->
  cl_Unseal u (string_of_bytes k) s2 = ((resp, err), s3) ->
  Unseal u fuel s = (r, s3) ->
  reads (calls (Unseal u fuel) s) = S n
  /\ submissions (calls (Unseal u fuel) s) = S n
  /\ last (calls (Unseal u fuel) s) = Some (SysUnseal (string_of_bytes k) resp err).
Proof.
  intros Hrounds HG HU Hrun.
  destruct (rounds_trace u 0 n s s1 Hrounds) as (new & Ht & Hr & Hs).
  apply keyStore_Get_trace in HG. apply cl_Unseal_trace in HU.
  rewrite (calls_eq (Unseal u fuel) s
             (new ++ [KvGet (unsealKeyForID u (index_after n)) k None;
                      SysUnseal (string_of_bytes k) resp err])).
  - rewrite reads_app, submissions_app, Hr, Hs.
    split; [cbn; lia|]. split; [cbn; lia|].
    change [KvGet ?a ?b ?c; ?d] with ([KvGet a b c] ++ [d]).
    rewrite app_assoc. apply last_snoc.
  - rewrite Hrun. cbn [snd]. rewrite HU, HG, Ht, <- !app_assoc. reflexivity.
Qed.

(** X2. When the submission itself fails, [Unseal] returns the error of line 68,
    whatever the response says, and stops at the failed submission. *)
Theorem Unseal_submit_fails u n s s1 s2 s3 k resp e fuel :
  rounds u 0 n s s1 ->
  keyStore_Get u (unsealKeyForID u (index_after n)) s1 = ((k, None), s2) ->
  cl_Unseal u (string_of_bytes k) s2 = ((resp, Some e), s3) ->
  (n < fuel)%nat ->
  Unseal u fuel s
  = (Some (Some (Errorf "fail to send unseal request to vault: %s"
                   [fmt.Str (Error e)])), s3)
  /\ reads (calls (Unseal u fuel) s) = S n
  /\ submissions (calls (Unseal u fuel) s) = S n
  /\ last (calls (Unseal u fuel) s)
     = Some (SysUnseal (string_of_bytes k) resp (Some e)).
Proof.
  intros Hrounds HG HU Hfuel.
  assert (Hrun : Unseal u fuel s
    = (Some (Some (Errorf "fail to send unseal request to vault: %s"
                     [fmt.Str (Error e)])), s3)).
  { apply (Unseal_returns u n s s1); [assumption| |assumption].
    unfold Unseal_turn, bind. rewrite HG, HU. reflexivity. }
  split; [exact Hrun|].
  exact (Unseal_calls_answered u n s s1 s2 s3 k resp _ _ fuel Hrounds HG HU Hrun).
Qed.

(** A run of the loop that returns [nil] ends with a submission that Vault
    answered, without error, as unsealed. *)
Lemma Unseal_loop_nil u fuel i s s' :
  Unseal_loop u fuel i s = (Some None, s') ->
  exists new share resp,
    trace s' = trace s ++ new
    /\ last new = Some (SysUnseal share resp None)
    /\ api.Sealed resp = false.
Proof.
  revert i s. induction fuel as [|fuel IH]; intros i s; cbn [Unseal_loop]; [discriminate|].
  unfold Unseal_turn, bind, ret.
  destruct (keyStore_Get u (unsealKeyForID u i) s) as [[k [e|]] s1] eqn:HG;
    [discriminate|].
  destruct (cl_Unseal u (string_of_bytes k) s1) as [[resp [e|]] s2] eqn:HU;
    [discriminate|].
  apply keyStore_Get_trace in HG. apply cl_Unseal_trace in HU.
  destruct (api.Sealed resp) eqn:Hsealed; cbn [negb].
  - destruct (api.Progress resp =? 0); [discriminate|].
    intros Hrest. destruct (IH _ _ Hrest) as (new & share & resp' & Ht & Hl & Hs).
    exists ([KvGet (unsealKeyForID u i) k None;
             SysUnseal (string_of_bytes k) resp None] ++ new), share, resp'.
    split; [by rewrite Ht, HU, HG, <- !app_assoc|].
    split; [|assumption]. rewrite last_app, Hl. reflexivity.
  - intros [= <-].
    exists [KvGet (unsealKeyForID u i) k None;
            SysUnseal (string_of_bytes k) resp None], (string_of_bytes k), resp.
    split; [by rewrite HU, HG, <- app_assoc|]. auto.
Qed.

(** X3. [Unseal] reports success only when the last thing it did was a
    submission that Vault answered, without error, with [Sealed = false]. *)
Theorem Unseal_nil_only_when_unsealed u fuel s s' :
  Unseal u fuel s = (Some None, s') ->
  exists share resp,
    last (calls (Unseal u fuel) s) = Some (SysUnseal share resp None)
    /\ api.Sealed resp = false.
Proof.
  intros Hrun.
  destruct (Unseal_loop_nil u fuel 0 s s' Hrun) as (new & share & resp & Ht & Hl & Hs).
  exists share, resp. split; [|assumption].
  rewrite (calls_eq (Unseal u fuel) s new); [assumption|].
  by rewrite Hrun.
Qed.

End UnsealMore.

Section UnsealShape.

Context {W : Type}.
Implicit Types (u : vault W) (s : state W).

Lemma fed_app a b : fed a -> fed b -> fed (a ++ b).
Proof.
  intros Ha Hb n share resp err H.
  destruct (decide (n < length a)%nat) as [Hlt|Hge].
  - rewrite lookup_app_l in H by assumption.
    destruct (Ha n share resp err H) as (m & key & k & -> & Hm & Hk).
    exists m, key, k. repeat split; [|assumption].
    rewrite lookup_app_l by lia. assumption.
  - rewrite lookup_app_r in H by lia.
    destruct (Hb _ share resp err H) as (m & key & k & Hn & Hm & Hk).
    exists (length a + m)%nat, key, k. repeat split; [lia| |assumption].
    rewrite lookup_app_r by lia.
    replace (length a + m - length a)%nat with m by lia. assumption.
Qed.

(** What one turn of the loop adds to the trace: a read of the key of its
    index, then, if the read succeeded, the submission of the value read. *)
Lemma Unseal_turn_trace u i s :
  exists new,
    trace (Unseal_turn u i s).2 = trace s ++ new
    /\ keys_read new = [unsealKeyForID u i]
    /\ reads new = 1%nat
    /\ (submissions new <= 1)%nat
    /\ fed new
    /\ Forall (fun c => is_read c || is_submission c = true) new.
Proof.
  unfold Unseal_turn, bind, ret.
  destruct (keyStore_Get u (unsealKeyForID u i) s) as [[k [e|]] s1] eqn:HG.
  - apply keyStore_Get_trace in HG.
    exists [KvGet (unsealKeyForID u i) k (Some e)].
    split; [assumption|]. split; [reflexivity|]. split; [reflexivity|].
    split; [cbn; lia|]. split; [|by repeat constructor].
    intros [|n] share resp err H; discriminate H.
  - destruct (cl_Unseal u (string_of_bytes k) s1) as [[resp err] s2] eqn:HU.
    apply keyStore_Get_trace in HG. apply cl_Unseal_trace in HU.
    assert (Hs2 : trace s2 = trace s ++ [KvGet (unsealKeyForID u i) k None;
                                         SysUnseal (string_of_bytes k) resp err]).
    { by rewrite HU, HG, <- app_assoc. }
    exists [KvGet (unsealKeyForID u i) k None; SysUnseal (string_of_bytes k) resp err].
    split.
    { destruct err as [e|]; [exact Hs2|].
      destruct (negb (api.Sealed resp)); [exact Hs2|].
      destruct (api.Progress resp =? 0); exact Hs2. }
    split; [reflexivity|]. split; [reflexivity|].
    split; [cbn; lia|]. split; [|by repeat constructor].
    intros [|[|n]] share resp' err' H; try discriminate H.
    injection H as <- <- <-. exists 0%nat, (unsealKeyForID u i), k. auto.
Qed.

(** The loop reads the keys of the indices it goes through, one per turn. *)
Lemma Unseal_loop_trace u fuel i s :
  exists (m : nat) new,
    (m <= fuel)%nat
    /\ trace (Unseal_loop u fuel i s).2 = trace s ++ new
    /\ keys_read new
       = map (fun j : nat => unsealKeyForID u (Nat.iter j GoInt.incr i)) (seq 0 m)
    /\ reads new = m
    /\ (submissions new <= m)%nat
    /\ fed new
    /\ Forall (fun c => is_read c || is_submission c = true) new.
Proof.
  revert i s. induction fuel as [|fuel IH]; intros i s; cbn [Unseal_loop].
  - exists 0%nat, []. rewrite app_nil_r.
    split; [lia|]. split; [reflexivity|]. split; [reflexivity|].
    split; [reflexivity|]. split; [cbn; lia|].
    split; [intros n share resp err H; discriminate H | constructor].
  - unfold bind.
    destruct (Unseal_turn_trace u i s) as (t1 & T1 & K1 & R1 & S1 & F1 & A1).
    destruct (Unseal_turn u i s) as [[|r] s1]; cbn [snd] in T1.
    + destruct (IH (GoInt.incr i) s1) as (m & t2 & Hm & T2 & K2 & R2 & S2 & F2 & A2).
      exists (S m), (t1 ++ t2).
      split; [lia|]. split; [by rewrite T2, T1, <- app_assoc|].
      split.
      { unfold keys_read in *. rewrite omap_app, K1, K2. cbn [seq map app Nat.iter].
        f_equal. rewrite <- seq_shift, List.map_map.
        apply List.map_ext. intros j. by rewrite iter_incr_shift. }
      split; [rewrite reads_app, R1, R2; reflexivity|].
      split; [rewrite submissions_app; lia|].
      split; [by apply fed_app | by apply Forall_app].
    + exists 1%nat, t1. unfold ret. cbn [snd].
      split; [lia|]. repeat split; assumption.
Qed.

(** X5. [Unseal] reads the unseal keys for the indices 0, 1, 2, ..., one per
    turn and in this order, the index being the number of the turn reduced
    to an [int]. *)
Theorem Unseal_reads_in_order u fuel s :
  exists m : nat,
    (m <= fuel)%nat
    /\ reads (calls (Unseal u fuel) s) = m
    /\ keys_read (calls (Unseal u fuel) s)
       = map (fun j : nat => unsealKeyForID u (GoInt.wrap (Z.of_nat j))) (seq 0 m).
Proof.
  destruct (Unseal_loop_trace u fuel 0 s) as (m & new & Hm & Ht & Hk & Hr & _).
  exists m. rewrite (calls_eq (Unseal u fuel) s new Ht).
  split; [assumption|]. split; [assumption|].
  rewrite Hk. apply List.map_ext. intros j.
  fold (index_after j). by rewrite index_after_wrap.
Qed.

(** X4. [Unseal] talks to the key store and to Vault by reads and submissions
    only, and what it submits is what it has just read: every submission
    comes right after a successful read and carries the value read, so there
    are never more submissions than reads. *)
Theorem Unseal_submits_what_it_reads u fuel s :
  fed (calls (Unseal u fuel) s)
  /\ Forall (fun c => is_read c || is_submission c = true) (calls (Unseal u fuel) s)
  /\ (submissions (calls (Unseal u fuel) s) <= reads (calls (Unseal u fuel) s))%nat.
Proof.
  destruct (Unseal_loop_trace u fuel 0 s)
    as (m & new & _ & Ht & _ & Hr & Hs & Hfed & Hall).
  rewrite (calls_eq (Unseal u fuel) s new Ht).
  split; [assumption|]. split; [assumption|]. lia.
Qed.

(** Fewer good turns than were found can be made as well. *)
Lemma rounds_take u i n s s' fuel :
  rounds u i n s s' -> (fuel <= n)%nat -> exists s'', rounds u i fuel s s''.
Proof.
  intros H. revert fuel.
  induction H as [i s | i n s s1 s2 s3 k resp HG HU Hsealed Hprogress _ IH]; intros fuel Hfuel.
  - replace fuel with 0%nat by lia. eexists. constructor.
  - destruct fuel as [|fuel]; [eexists; constructor|].
    destruct (IH fuel ltac:(lia)) as [s'' Hs''].
    exists s''. by apply (rounds_S u i fuel s s1 s2 s'' k resp).
Qed.

(** X6. The loop has no bound of its own: while the key store yields shares and
    Vault, still sealed, reports progress, [Unseal] has not returned. *)
Theorem Unseal_keeps_going u n s s' fuel :
  rounds u 0 n s s' -> (fuel <= n)%nat -> (Unseal u fuel s).1 = None.
Proof.
  intros Hrounds Hfuel.
  destruct (rounds_take u 0 n s s' fuel Hrounds Hfuel) as [s'' Hs''].
  unfold Unseal. replace fuel with (fuel + 0)%nat at 1 by lia.
  rewrite (Unseal_loop_rounds u 0 fuel s s'' 0 Hs''). reflexivity.
Qed.

End UnsealShape.

(** Vault cannot be reached: one read, one submission, then the error. *)
Lemma Unseal_submit_fails_prod :
  (Unseal (Mem.new prod) 3 prod_unreachable).1
  = Some (Some (errorString
       "fail to send unseal request to vault: connection reset"))
  /\ reads (calls (Unseal (Mem.new prod) 3) prod_unreachable) = 1%nat
  /\ submissions (calls (Unseal (Mem.new prod) 3) prod_unreachable) = 1%nat.
Proof.
  pose (u := Mem.new prod).
  pose (s2 := (keyStore_Get u "prod-unseal-0" prod_unreachable).2).
  pose (s3 := (cl_Unseal u "k0" s2).2).
  destruct (Unseal_submit_fails u 0 prod_unreachable prod_unreachable s2 s3
              (bytes_of_string "k0") (api.mkSealStatusResponse false 0)
              (errorString "connection reset") 3)
    as (Hrun & Hr & Hs & _).
  - apply rounds_O.
  - vm_compute. reflexivity.
  - vm_compute. reflexivity.
  - lia.
  - fold u. rewrite Hrun. split; [vm_compute; reflexivity|]. auto.
Defined.

(** In the scenario of the specification the run ends with the third
    share, which Vault answers as unsealed. *)
Lemma Unseal_nil_only_when_unsealed_prod :
  exists share resp,
    last (calls (Unseal (Mem.new prod) 3) prod_sealed)
    = Some (SysUnseal share resp None)
    /\ api.Sealed resp = false.
Proof.
  apply (Unseal_nil_only_when_unsealed (Mem.new prod) 3 prod_sealed
           (Unseal (Mem.new prod) 3 prod_sealed).2).
  vm_compute. reflexivity.
Defined.

(** After one good turn, and with one turn allowed, the run is not over. *)
Lemma Unseal_keeps_going_prod : (Unseal (Mem.new prod) 1 prod_sealed).1 = None.
Proof.
  pose (u := Mem.new prod).
  pose (s1 := (keyStore_Get u "prod-unseal-0" prod_sealed).2).
  pose (s2 := (cl_Unseal u "k0" s1).2).
  apply (Unseal_keeps_going u 1 prod_sealed s2 1); [|lia].
  apply (rounds_S u 0 0 prod_sealed s1 s2 s2 (bytes_of_string "k0")
           (api.mkSealStatusResponse true 1)).
  - vm_compute. reflexivity.
  - vm_compute. reflexivity.
  - reflexivity.
  - discriminate.
  - apply rounds_O.
Defined.

(** ** More on [Init] *)

Section InitMore.

Context {W : Type}.
Implicit Types (u : vault W) (s : state W).

(** The test for existing keys neither writes nor asks Vault anything. *)
Lemma Init_existing_quiet u fuel s :
  exists new,
    trace (Init_existing u fuel s).2 = trace s ++ new
    /\ writes new = [] /\ List.filter is_init_request new = [].
Proof.
  pose (Q := fun t : list call => writes t = [] /\ List.filter is_init_request t = []).
  assert (HQ : emits Q (Init_existing u fuel)).
  { apply emits_Init_existing; unfold Q.
    - auto.
    - intros a b [Wa Ia] [Wb Ib]. unfold writes in *.
      rewrite omap_app, List.filter_app, Wa, Wb, Ia, Ib. auto.
    - auto. }
  exact (HQ s).
Qed.

(** The writes make no request to Vault. *)
Lemma Init_writes_quiet u resp s :
  exists new,
    trace (Init_writes u resp s).2 = trace s ++ new
    /\ List.filter is_init_request new = [].
Proof.
  pose (Q := fun t : list call => List.filter is_init_request t = []).
  assert (Hnil : Q []) by reflexivity.
  assert (Happ : forall a b, Q a -> Q b -> Q (a ++ b)).
  { intros a b Ha Hb. unfold Q in *. by rewrite List.filter_app, Ha, Hb. }
  assert (Hset : forall key val, emits Q (keyStoreSet u key val)).
  { intros key val. apply emits_keyStoreSet; try assumption; reflexivity. }
  assert (HQ : emits Q (Init_writes u resp)).
  { unfold Init_writes. apply emits_bind; [assumption| |].
    - apply emits_Init_store_keys; try assumption. intros. apply Hset.
    - intros [e|]; [by apply emits_ret|].
      apply emits_Init_root_token; try assumption. intros _ val. apply Hset. }
  exact (HQ s).
Qed.

(** X7. [Init] asks Vault to initialize at most once, with the counts of the
    options, and writes nothing unless that request succeeded: either no
    request was made and nothing was written; or the one request failed,
    nothing was written and [Init] returns the error of line 134; or the one
    request succeeded. *)
Theorem Init_requests_once u fuel s :
  (List.filter is_init_request (calls (Init u fuel) s) = []
   /\ writes (calls (Init u fuel) s) = [])
  \/ (exists resp e,
        List.filter is_init_request (calls (Init u fuel) s)
        = [SysInit (init_request u) resp (Some e)]
        /\ writes (calls (Init u fuel) s) = []
        /\ (Init u fuel s).1 = Some (Some (init_error e)))
  \/ (exists resp,
        List.filter is_init_request (calls (Init u fuel) s)
        = [SysInit (init_request u) resp None]).
Proof.
  destruct (keyStore_Test u (testKey u) s) as [terr s1] eqn:HT.
  pose proof (keyStore_Test_trace u _ s terr s1 HT) as TT.
  destruct terr as [e|].
  { left.
    assert (Hrun : Init u fuel s
      = (Some (Some (Errorf "error testing keystore before init: %s"
                       [fmt.Str (Error e)])), s1)).
    { unfold Init, bind. by rewrite HT. }
    rewrite (calls_eq (Init u fuel) s [KvTest (testKey u) (Some e)]);
      [auto | by rewrite Hrun]. }
  destruct (Init_existing_quiet u fuel s1) as (n1 & T1 & W1 & I1).
  destruct (Init_existing u fuel s1) as [ex s2] eqn:HE. cbn [snd] in T1.
  assert (Hpre : trace s2 = trace s ++ ([KvTest (testKey u) None] ++ n1)).
  { by rewrite T1, TT, <- app_assoc. }
  assert (Hquiet : List.filter is_init_request ([KvTest (testKey u) None] ++ n1) = []
                   /\ writes ([KvTest (testKey u) None] ++ n1) = []).
  { unfold writes in *. rewrite List.filter_app, omap_app, I1, W1. auto. }
  remember ([KvTest (testKey u) None] ++ n1) as pre0 eqn:Epre0.
  destruct ex as [[e|]|].
  - left.
    assert (Hrun : Init u fuel s = (Some (Some e), s2)).
    { unfold Init, bind. by rewrite HT, HE. }
    rewrite (calls_eq (Init u fuel) s pre0);
      [exact Hquiet | by rewrite Hrun].
  - destruct (cl_Init u (init_request u) s2) as [[resp err] s3] eqn:HI.
    pose proof (cl_Init_trace u _ s2 resp err s3 HI) as TI.
    unfold init_request in HI.
    destruct err as [e|].
    + right. left. exists resp, e.
      assert (Hrun : Init u fuel s = (Some (Some (init_error e)), s3)).
      { unfold Init, bind. rewrite HT, HE. unfold Init_vault, bind. by rewrite HI. }
      rewrite (calls_eq (Init u fuel) s
                 (pre0
                    ++ [SysInit (init_request u) resp (Some e)])).
      * destruct Hquiet as [Hi Hw]. unfold writes in *.
        rewrite List.filter_app, omap_app, Hi, Hw, Hrun. auto.
      * rewrite Hrun. cbn [snd]. by rewrite TI, Hpre, <- !app_assoc.
    + right. right. exists resp.
      destruct (Init_writes_quiet u resp s3) as (n2 & T2 & I2).
      assert (Hrun : (Init u fuel s).2 = (Init_writes u resp s3).2).
      { unfold Init, bind. rewrite HT, HE. unfold Init_vault, bind. rewrite HI.
        unfold Init_writes, bind.
        destruct (Init_store_keys u 0 (api.Keys resp) s3) as [[e|] s4]; [reflexivity|].
        destruct (Init_root_token u resp s4). reflexivity. }
      rewrite (calls_eq (Init u fuel) s
                 ((pre0
                     ++ [SysInit (init_request u) resp None]) ++ n2)).
      * destruct Hquiet as [Hi _].
        rewrite !List.filter_app, Hi, I2. reflexivity.
      * rewrite Hrun, T2, TI, Hpre, <- !app_assoc. reflexivity.
  - left.
    assert (Hrun : Init u fuel s = (None, s2)).
    { unfold Init, bind. by rewrite HT, HE. }
    rewrite (calls_eq (Init u fuel) s pre0);
      [exact Hquiet | by rewrite Hrun].
Qed.

(** X8. With [OverwriteExisting] on, [Init] never reads the key store, neither
    to test for existing keys nor before a write, and it returns whatever
    [SecretShares] is. *)
Theorem Init_overwrite_never_reads u fuel s :
  OverwriteExisting (config u) = true ->
  reads (calls (Init u fuel) s) = 0%nat
  /\ exists r, (Init u fuel s).1 = Some r.
Proof.
  intros Hover.
  pose (Q := fun t : list call => reads t = 0%nat).
  assert (Hnil : Q []) by reflexivity.
  assert (Happ : forall a b, Q a -> Q b -> Q (a ++ b)).
  { intros a b Ha Hb. unfold Q in *. by rewrite reads_app, Ha, Hb. }
  assert (Hset : forall key val, emits Q (keyStoreSet u key val)).
  { intros key val. unfold keyStoreSet. rewrite Hover. cbn [negb].
    apply emits_Set. reflexivity. }
  split.
  - apply (emits_calls Q (Init u fuel) s). unfold Init.
    apply emits_bind; [assumption| |].
    { apply emits_Test. reflexivity. }
    intros [e|]; [by apply emits_ret|].
    unfold Init_existing. rewrite Hover. cbn [negb].
    apply emits_bind; [assumption|by apply emits_ret|].
    intros [[e|]|]; [by apply emits_ret| |by apply emits_ret].
    apply emits_bind; [assumption| |intros; by apply emits_ret].
    unfold Init_vault. apply emits_bind; [assumption| |].
    { apply emits_Init_call. reflexivity. }
    intros [resp [e|]]; [by apply emits_ret|].
    apply emits_bind; [assumption| |].
    { apply emits_Init_store_keys; try assumption. intros. apply Hset. }
    intros [e|]; [by apply emits_ret|].
    apply emits_Init_root_token; try assumption. intros _ val. apply Hset.
  - unfold Init, bind, Init_existing. rewrite Hover. cbn [negb]. unfold ret.
    destruct (keyStore_Test u (testKey u) s) as [[e|] s1]; [eauto|].
    destruct (Init_vault u s1) as [r s2]. eauto.
Qed.

(** X9. With [OverwriteExisting] off and [SecretShares] the largest [int], the
    loop that lists the keys to test never ends: once the probe of the key
    store has succeeded, [Init] is still in that loop however many turns it
    is given, having looked up nothing and asked Vault nothing. *)
Theorem Init_stuck_at_max_int u s s1 fuel :
  OverwriteExisting (config u) = false ->
  SecretShares (config u) = GoInt.max_int ->
  keyStore_Test u (testKey u) s = (None, s1) ->
  Init u fuel s = (None, s1)
  /\ calls (Init u fuel) s = [KvTest (testKey u) None].
Proof.
  intros Hover Hmax HT.
  assert (Hrun : Init u fuel s = (None, s1)).
  { unfold Init, bind. rewrite HT. unfold Init_existing. rewrite Hover. cbn [negb].
    rewrite Init_unseal_keys_max_int; [reflexivity | assumption |].
    unfold GoInt.in_range, GoInt.min_int, GoInt.max_int. lia. }
  split; [exact Hrun|].
  apply calls_eq. rewrite Hrun. cbn [snd].
  exact (keyStore_Test_trace u _ s None s1 HT).
Qed.


End InitMore.

(** Over an initialized key store, and with no turn allowed to the loop that
    lists the keys, [Init] in overwrite mode returns without a read. *)
Lemma Init_overwrite_never_reads_prod :
  reads (calls (Init (Mem.new prod_overwrite) 0) prod_again) = 0%nat
  /\ exists r, (Init (Mem.new prod_overwrite) 0 prod_again).1 = Some r.
Proof.
  exact (Init_overwrite_never_reads (Mem.new prod_overwrite) 0 prod_again eq_refl).
Defined.

(** A thousand turns are not enough. *)
Lemma Init_stuck_at_max_int_prod :
  (Init (Mem.new prod_max) 1000 prod_fresh).1 = None
  /\ calls (Init (Mem.new prod_max) 1000) prod_fresh = [KvTest "prod-test" None].
Proof.
  destruct (Init_stuck_at_max_int (Mem.new prod_max) prod_fresh
              (keyStore_Test (Mem.new prod_max) "prod-test" prod_fresh).2 1000)
    as [Hrun Hcalls]; [reflexivity | reflexivity | vm_compute; reflexivity |].
  rewrite Hrun. split; [reflexivity | exact Hcalls].
Defined.


(** ** [Init] and what the key store holds, continued *)

Section InitHeld.

Context {W : Type}.
Implicit Types (u : vault W) (s : state W).

(** A successful [Init]: its request, its writes and what a lawful key
    store holds afterwards. *)
Lemma Init_success_held u fuel s s' contents :
  lawful (keyStore u) contents ->
  Init u fuel s = (Some None, s') ->
  exists resp,
    List.filter is_init_request (calls (Init u fuel) s)
    = [SysInit (init_request u) resp None]
    /\ writes (calls (Init u fuel) s)
       = unseal_entries u 0 (api.Keys resp)
         ++ (if StoreRootToken (config u)
             then [(rootTokenKey u, bytes_of_string (api.RootToken resp))]
             else [])
    /\ (forall (i : nat) share,
          api.Keys resp !! i = Some share ->
          contents (world s') !! unsealKeyForID u (Z.of_nat i)
          = Some (bytes_of_string share))
    /\ (StoreRootToken (config u) = true ->
        contents (world s') !! rootTokenKey u
        = Some (bytes_of_string (api.RootToken resp))).
Proof.
  intros Hlaw Hrun.
  destruct (Init_success_inv u fuel s s' Hrun) as (resp & s3 & s4 & Hreq & Hst & Hroot).
  destruct (requested_trace u fuel s resp s3 Hreq) as (n1 & T1 & W1 & I1).
  destruct (stored_trace u 0 _ s3 s4 Hst) as (n2 & T2 & W2 & I2).
  destruct (stored_contents contents u 0 _ s3 s4 Hlaw Hst) as [Hin _].
  exists resp.
  destruct (StoreRootToken (config u)).
  - destruct (keyStoreSet_ok_trace u _ _ s4 s' Hroot) as (n3 & T3 & W3 & I3).
    pose proof (keyStoreSet_ok contents u _ _ s4 s' Hlaw Hroot) as Hc.
    rewrite (calls_eq (Init u fuel) s (n1 ++ n2 ++ n3)).
    + unfold writes in *. rewrite !List.filter_app, !omap_app, I1, I2, I3, W1, W2, W3.
      split; [reflexivity|]. split; [reflexivity|]. split.
      * intros i share Hi. rewrite Hc, lookup_insert_ne by apply rootTokenKey_not_unseal.
        by apply (Hin i share).
      * intros _. rewrite Hc. apply lookup_insert_eq.
    + rewrite Hrun. cbn [snd]. by rewrite T3, T2, T1, <- !app_assoc.
  - subst s'. rewrite (calls_eq (Init u fuel) s (n1 ++ n2)).
    + unfold writes in *. rewrite !List.filter_app, !omap_app, I1, I2, W1, W2, !app_nil_r.
      split; [reflexivity|]. split; [reflexivity|]. split; [|discriminate].
      intros i share Hi. by apply (Hin i share).
    + rewrite Hrun. cbn [snd]. by rewrite T2, T1, <- !app_assoc.
Qed.

(** X10. With [StoreRootToken] on, after a successful [Init] a lawful key store
    holds the root token of the answer of Vault under the root key, and the
    write of the root token is the last write, after those of the shares. *)
Theorem Init_stores_root_token u fuel s s' contents :
  lawful (keyStore u) contents ->
  StoreRootToken (config u) = true ->
  Init u fuel s = (Some None, s') ->
  exists resp,
    List.filter is_init_request (calls (Init u fuel) s)
    = [SysInit (init_request u) resp None]
    /\ contents (world s') !! rootTokenKey u
       = Some (bytes_of_string (api.RootToken resp))
    /\ last (writes (calls (Init u fuel) s))
       = Some (rootTokenKey u, bytes_of_string (api.RootToken resp)).
Proof.
  intros Hlaw Hstore Hrun.
  destruct (Init_success_held u fuel s s' contents Hlaw Hrun)
    as (resp & Hreq & Hw & _ & Hroot).
  exists resp. split; [assumption|]. split; [by apply Hroot|].
  rewrite Hw, Hstore. apply last_snoc.
Qed.

(** Keys reported not found by an honest key store are not in it. *)
Lemma absent_contents u contents keys s s' :
  lawful (keyStore u) contents ->
  honest (keyStore u) contents ->
  absent u keys s s' ->
  contents (world s') = contents (world s)
  /\ Forall (fun key => contents (world s) !! key = None) keys.
Proof.
  intros Hlaw Hhonest.
  induction 1 as [s | key keys s s1 s2 val err HG Hnf _ IH]; [auto|].
  destruct IH as [Hs2 Hkeys].
  pose proof (keyStore_Get_contents contents u key s _ s1 Hlaw HG) as Hs1.
  split; [by rewrite Hs2|].
  constructor; [|by rewrite <- Hs1].
  pose proof (Hhonest key (world s)) as Hh.
  unfold keyStore_Get in HG.
  destruct (kv.Get (keyStore u) key (world s)) as [[v e] w].
  injection HG as _ -> _. by apply Hh.
Qed.

(** X11. [Init] cannot be run twice: with [OverwriteExisting] off, after an
    [Init] that succeeded and wrote something, a second [Init] over a lawful
    and honest key store returns an error, without a request to Vault and
    without a write. *)
Theorem Init_twice_refused u fuel fuel' s s' contents :
  lawful (keyStore u) contents ->
  honest (keyStore u) contents ->
  probe_apart (keyStore u) contents ->
  OverwriteExisting (config u) = false ->
  0 <= SecretShares (config u) < GoInt.max_int ->
  (Z.to_nat (SecretShares (config u) + 1) < fuel')%nat ->
  Init u fuel s = (Some None, s') ->
  writes (calls (Init u fuel) s) <> [] ->
  exists e,
    (Init u fuel' s').1 = Some (Some e)
    /\ init_requests (calls (Init u fuel') s') = 0%nat
    /\ writes (calls (Init u fuel') s') = [].
Proof.
  intros Hlaw Hhonest Hprobe Hover [Hss Hmax] Hfuel Hrun Hwrote.
  destruct (Init_success_held u fuel s s' contents Hlaw Hrun)
    as (resp & _ & Hw & Hheld & Hroot).
  assert (Hkey : exists key val,
    key ∈ existing_keys u /\ key <> testKey u
    /\ contents (world s') !! key = Some val).
  { destruct (StoreRootToken (config u)) eqn:Hstore.
    - exists (rootTokenKey u), (bytes_of_string (api.RootToken resp)).
      split; [unfold existing_keys; apply list_elem_of_here|].
      split; [|by apply Hroot]. intros Heq. by apply (testKey_not_root u).
    - destruct (api.Keys resp) as [|share shares] eqn:Hkeys.
      { rewrite app_nil_r in Hw. by destruct Hwrote. }
      exists (unsealKeyForID u 0), (bytes_of_string share).
      split.
      { unfold existing_keys. rewrite seqZ_cons by lia.
        cbn [map]. apply list_elem_of_further, list_elem_of_here. }
      split; [intros Heq; by apply (testKey_not_unseal u 0)|].
      exact (Hheld 0%nat share eq_refl). }
  destruct Hkey as (key & val & Hin & Hne & Hval).
  destruct (keyStore_Test u (testKey u) s') as [terr s1] eqn:HT.
  pose proof (keyStore_Test_trace u _ s' terr s1 HT) as TT.
  assert (Hval1 : contents (world s1) !! key = Some val).
  { pose proof (Hprobe (testKey u) (world s') key Hne) as Hp.
    unfold keyStore_Test in HT.
    destruct (kv.Test (keyStore u) (testKey u) (world s')) as [e w].
    injection HT as _ <-. cbn [world snd] in *. by rewrite Hp. }
  destruct terr as [e|].
  { assert (Hrun2 : Init u fuel' s'
      = (Some (Some (Errorf "error testing keystore before init: %s"
                       [fmt.Str (Error e)])), s1)).
    { unfold Init, bind. by rewrite HT. }
    eexists. rewrite Hrun2. split; [reflexivity|].
    rewrite (calls_eq (Init u fuel') s' [KvTest (testKey u) (Some e)]);
      [auto | by rewrite Hrun2]. }
  destruct (absent_or_present u (existing_keys u) s1)
    as [[s2 Habs] | (pre & key' & post & s2 & s3 & val' & err' & Hkeys & Habs & HG & Hnf)].
  { destruct (absent_contents u contents _ s1 s2 Hlaw Hhonest Habs) as [_ Hnone].
    rewrite Forall_forall in Hnone. rewrite (Hnone key Hin) in Hval1. discriminate. }
  pose proof (Init_existing_eq u fuel' s1 Hover Hmax Hfuel) as Heq.
  rewrite Hkeys, (Init_test_keys_present u pre key' post s1 s2 s3 val' err' Habs HG Hnf)
    in Heq.
  pose proof (Init_existing_aborts u fuel' s' s1 _ s3 HT Heq) as Hrun2.
  destruct (absent_trace u _ s1 s2 Habs) as (new & Ht & _ & Hw' & Hi').
  pose proof (keyStore_Get_trace u key' s2 val' err' s3 HG) as HGt.
  eexists. rewrite Hrun2. split; [reflexivity|].
  rewrite (calls_eq (Init u fuel') s'
             ([KvTest (testKey u) None] ++ new ++ [KvGet key' val' err'])).
  - unfold writes in *. rewrite !init_requests_app, !omap_app, Hi', Hw'. auto.
  - rewrite Hrun2. cbn [snd]. by rewrite HGt, Ht, TT, <- !app_assoc.
Qed.

End InitHeld.

(** ** [Init], then [Unseal] *)

Section InitThenUnseal.

Context {W : Type}.
Implicit Types (u : vault W) (s : state W).

Variable contents : W -> gmap string bytes.
Variable ok : W -> Prop.

(** A read of a key the key store holds, in a world that is [ok]. *)
Lemma keyStore_Get_held u key val s :
  lawful (keyStore u) contents ->
  readable (keyStore u) (cl u) contents ok ->
  ok (world s) ->
  contents (world s) !! key = Some val ->
  exists s1,
    keyStore_Get u key s = ((val, None), s1)
    /\ ok (world s1)
    /\ contents (world s1) = contents (world s).
Proof.
  intros Hlaw Hread Hok Hval. unfold keyStore_Get.
  pose proof (Get_value _ _ _ _ Hread key (world s) val Hok Hval) as Hv.
  pose proof (ok_Get _ _ _ _ Hread key (world s) Hok) as Hok1.
  pose proof (Get_contents _ _ Hlaw key (world s)) as Hc.
  destruct (kv.Get (keyStore u) key (world s)) as [[v e] w].
  cbn [fst snd] in *. injection Hv as -> ->.
  eexists. split; [reflexivity|]. auto.
Qed.

Lemma cl_Unseal_apart u share s :
  readable (keyStore u) (cl u) contents ok ->
  ok (world s) ->
  ok (world (cl_Unseal u share s).2)
  /\ contents (world (cl_Unseal u share s).2) = contents (world s).
Proof.
  intros Hread Hok. unfold cl_Unseal.
  pose proof (ok_Unseal _ _ _ _ Hread share (world s) Hok) as Hok1.
  pose proof (Unseal_contents _ _ _ _ Hread share (world s)) as Hc.
  destruct (api.Unseal (cl u) share (world s)) as [[resp err] w]. auto.
Qed.

(** Over a key store that holds the shares under the unseal keys from [i]
    on, the loop submits those shares, in order, for as long as it runs. *)
Lemma Unseal_loop_submits u fuel i shares s :
  lawful (keyStore u) contents ->
  readable (keyStore u) (cl u) contents ok ->
  ok (world s) ->
  (forall (j : nat) share,
     shares !! j = Some share ->
     contents (world s) !! unsealKeyForID u (i + Z.of_nat j)
     = Some (bytes_of_string share)) ->
  GoInt.min_int <= i ->
  i + Z.of_nat (length shares) <= GoInt.max_int + 1 ->
  exists new,
    trace (Unseal_loop u fuel i s).2 = trace s ++ new
    /\ forall (j : nat) share,
         submitted new !! j = Some share ->
         (j < length shares)%nat ->
         shares !! j = Some share.
Proof.
  intros Hlaw Hread. revert i shares s.
  induction fuel as [|fuel IH]; intros i shares s Hok Hheld Hlo Hhi.
  { exists []. cbn. rewrite app_nil_r. split; [reflexivity|]. intros j share [=]. }
  destruct shares as [|sh rest].
  { destruct (Unseal_loop_trace u (S fuel) i s) as (m & new & _ & Ht & _).
    exists new. split; [assumption|]. cbn [length]. intros j share _ Hj. lia. }
  pose proof (Hheld 0%nat sh eq_refl) as H0. rewrite Z.add_0_r in H0.
  destruct (keyStore_Get_held u _ _ s Hlaw Hread Hok H0) as (s1 & HG & Hok1 & Hc1).
  destruct (cl_Unseal_apart u sh s1 Hread Hok1) as [Hok2 Hc2].
  destruct (cl_Unseal u sh s1) as [[resp err] s2] eqn:HU. cbn [snd] in Hok2, Hc2.
  pose proof (keyStore_Get_trace u _ s _ _ s1 HG) as TG.
  pose proof (cl_Unseal_trace u _ s1 _ _ s2 HU) as TU.
  pose (turn := [KvGet (unsealKeyForID u i) (bytes_of_string sh) None;
                 SysUnseal sh resp err]).
  assert (Hs2 : trace s2 = trace s ++ turn).
  { unfold turn. by rewrite TU, TG, <- app_assoc. }
  assert (Hstop : exists new,
    trace s2 = trace s ++ new
    /\ forall (j : nat) share,
         submitted new !! j = Some share ->
         (j < length (sh :: rest))%nat -> (sh :: rest) !! j = Some share).
  { exists turn. split; [assumption|].
    intros [|[|j]] share Hj _; cbn in Hj; [|discriminate..]. exact Hj. }
  cbn [Unseal_loop]. unfold bind at 1. unfold Unseal_turn, bind, ret.
  rewrite HG, string_of_bytes_of_string, HU.
  destruct err as [e|]; [exact Hstop|].
  destruct (negb (api.Sealed resp)); [exact Hstop|].
  destruct (api.Progress resp =? 0); [exact Hstop|].
  assert (Hnext : forall (j : nat) share,
    rest !! j = Some share ->
    contents (world s2) !! unsealKeyForID u (GoInt.incr i + Z.of_nat j)
    = Some (bytes_of_string share)).
  { intros j share Hj. rewrite Hc2, Hc1.
    assert (Hlen : (0 < length rest)%nat) by (apply lookup_lt_Some in Hj; lia).
    cbn [length] in Hhi. rewrite incr_small by lia.
    replace (i + 1 + Z.of_nat j) with (i + Z.of_nat (S j)) by lia.
    by apply (Hheld (S j)). }
  pose proof (wrap_range (i + 1)) as Hrange. fold (GoInt.incr i) in Hrange.
  destruct (IH (GoInt.incr i) rest s2 Hok2 Hnext) as (new & Ht & Hsub).
  { unfold GoInt.in_range in Hrange. lia. }
  { destruct rest as [|sh' rest'].
    - unfold GoInt.in_range in Hrange. cbn [length]. lia.
    - cbn [length] in *. rewrite incr_small; lia. }
  exists (turn ++ new). split; [by rewrite Ht, Hs2, <- app_assoc|].
  intros [|j] share Hj Hlt.
  - cbn in Hj. exact Hj.
  - unfold submitted, turn in Hj. cbn in Hj. cbn [length] in Hlt.
    apply (Hsub j share Hj). lia.
Qed.

(** X12. After a successful [Init], [Unseal] submits the shares Vault returned,
    in the order of the answer: over a lawful and readable key store, the
    [j]-th submission of a later [Unseal], for [j] below the number of shares
    returned, is the [j]-th share of the answer to the request of [Init]. *)
Theorem Init_then_Unseal u fuel fuel' s s' :
  lawful (keyStore u) contents ->
  readable (keyStore u) (cl u) contents ok ->
  Init u fuel s = (Some None, s') ->
  ok (world s') ->
  exists resp,
    List.filter is_init_request (calls (Init u fuel) s)
    = [SysInit (init_request u) resp None]
    /\ (Z.of_nat (length (api.Keys resp)) <= GoInt.max_int + 1 ->
        forall (j : nat) share,
          submitted (calls (Unseal u fuel') s') !! j = Some share ->
          (j < length (api.Keys resp))%nat ->
          api.Keys resp !! j = Some share).
Proof.
  intros Hlaw Hread Hrun Hok.
  destruct (Init_success_held u fuel s s' contents Hlaw Hrun)
    as (resp & Hreq & _ & Hheld & _).
  exists resp. split; [assumption|]. intros Hlen.
  destruct (Unseal_loop_submits u fuel' 0 (api.Keys resp) s' Hlaw Hread Hok)
    as (new & Ht & Hsub).
  - intros j share Hj. rewrite Z.add_0_l. by apply Hheld.
  - unfold GoInt.min_int. lia.
  - lia.
  - rewrite (calls_eq (Unseal u fuel') s' new Ht). exact Hsub.
Qed.

End InitThenUnseal.

(** ** More laws of the in-memory key store *)

Lemma Mem_probe_apart : probe_apart Mem.service Mem.entries.
Proof. intros key w key' _. reflexivity. Qed.

Lemma Mem_readable : readable Mem.service Mem.sys Mem.entries Mem_ok.
Proof.
  split.
  - intros key w Hok. cbn. unfold Mem.Get.
    destruct (bool_decide _); [exact Hok|].
    destruct (Mem.entries w !! key); exact Hok.
  - intros share w Hok. cbn. unfold Mem.Unseal.
    destruct (Mem.unseal_answers w); exact Hok.
  - intros key w val Hok Hval. cbn. unfold Mem.Get.
    unfold Mem_ok in Hok. rewrite Hok, Hval.
    rewrite bool_decide_eq_false_2 by apply not_elem_of_nil. reflexivity.
  - intros share w. cbn. unfold Mem.Unseal.
    destruct (Mem.unseal_answers w); reflexivity.
Qed.

(** In the scenario of the specification the root token is in the key
    store after [Init], written last. *)
Lemma Init_stores_root_token_prod :
  exists resp,
    List.filter is_init_request (calls (Init (Mem.new prod) 7) prod_fresh)
    = [SysInit (init_request (Mem.new prod)) resp None]
    /\ Mem.entries (world (Init (Mem.new prod) 7 prod_fresh).2) !! "prod-root"
       = Some (bytes_of_string (api.RootToken resp))
    /\ last (writes (calls (Init (Mem.new prod) 7) prod_fresh))
       = Some ("prod-root", bytes_of_string (api.RootToken resp)).
Proof.
  apply (Init_stores_root_token (Mem.new prod) 7 prod_fresh
           (Init (Mem.new prod) 7 prod_fresh).2 Mem.entries Mem_lawful eq_refl).
  vm_compute. reflexivity.
Defined.

(** In the scenario of the specification a second [Init] is refused. *)
Lemma Init_twice_refused_prod :
  exists e,
    (Init (Mem.new prod) 7 (Init (Mem.new prod) 7 prod_fresh).2).1 = Some (Some e)
    /\ init_requests (calls (Init (Mem.new prod) 7) (Init (Mem.new prod) 7 prod_fresh).2)
       = 0%nat
    /\ writes (calls (Init (Mem.new prod) 7) (Init (Mem.new prod) 7 prod_fresh).2) = [].
Proof.
  apply (Init_twice_refused (Mem.new prod) 7 7 prod_fresh
           (Init (Mem.new prod) 7 prod_fresh).2 Mem.entries
           Mem_lawful Mem_honest Mem_probe_apart eq_refl).
  - unfold GoInt.max_int. cbn. lia.
  - cbn. lia.
  - vm_compute. reflexivity.
  - vm_compute. discriminate.
Defined.

(** [Init] and then [Unseal], over one key store: the shares submitted are
    those Vault handed out. *)
Lemma Init_then_Unseal_prod :
  exists resp,
    List.filter is_init_request (calls (Init (Mem.new prod) 7) prod_both)
    = [SysInit (init_request (Mem.new prod)) resp None]
    /\ (Z.of_nat (length (api.Keys resp)) <= GoInt.max_int + 1 ->
        forall (j : nat) share,
          submitted (calls (Unseal (Mem.new prod) 5)
                       (Init (Mem.new prod) 7 prod_both).2) !! j = Some share ->
          (j < length (api.Keys resp))%nat ->
          api.Keys resp !! j = Some share).
Proof.
  apply (Init_then_Unseal Mem.entries Mem_ok (Mem.new prod) 7 5 prod_both
           (Init (Mem.new prod) 7 prod_both).2 Mem_lawful Mem_readable).
  - vm_compute. reflexivity.
  - vm_compute. reflexivity.
Defined.

(** What is submitted in that run. *)
Example Init_then_Unseal_shares :
  submitted (calls (Unseal (Mem.new prod) 5) (Init (Mem.new prod) 7 prod_both).2)
  = ["k0"; "k1"; "k2"].
Proof. vm_compute. reflexivity. Qed.
